(** * progress_table: a shallow embedding of [ProgressTable]

    The Python class [ProgressTable] of [progress_table/progress_table.py]
    is modelled method by method.  The object's attributes form the record
    [ProgressTable]; standard output and the wall clock form the rest of the
    [world]; a method is a computation in the monad [M], which threads the
    world and may raise a Python exception.  The world returned next to a
    raised exception is the world as the exception left it.

    Conventions.
    - A Python [str] is a Rocq [string]; lengths and slices count characters
      of that string, which is exact for ASCII text.
    - A Python [int] is a [Z].  A Python [float] is a [pyfloat]: a finite
      binary64 number given by its exact value, an infinity or NaN; every
      float operation rounds its exact result to the nearest binary64 number,
      ties to even ([round64]).
    - Sizes are not bounded: a width, a position in a list or a string is as
      large as its [Z] or its list, although CPython gives up on a string of
      more than [2^63] characters and on the conversion to [float] of an
      [int] from [2^1024] on.
    - A [dict] and a [defaultdict] are [gmap]s; reading a missing key of a
      [defaultdict] stores the default under that key, as [getitem_default]
      does.
    - [time.time()] reads the next sample of the world's [clock], which lists
      the values of the floats it returns.
    - [progress_bar_fps] is an int or a finite float, given by its value;
      [1 / progress_bar_fps] is the float nearest to the exact quotient in
      both cases. *)

From Stdlib Require Import QArith Qround Qabs Qpower.
From stdpp Require Import gmap strings list fin_maps pretty.

Local Open Scope string_scope.
Local Open Scope list_scope.
Local Open Scope Z_scope.

(** ** Python strings *)

Definition len (s : string) : Z := Z.of_nat (String.length s).

(** [s * k]: [k] copies of [s], none when [k <= 0]. *)
Definition str_mul (s : string) (k : Z) : string :=
  String.concat "" (replicate (Z.to_nat k) s).

(** [s[:stop]], with a negative [stop] counted from the end. *)
Definition slice_to (s : string) (stop : Z) : string :=
  let n := len s in
  let stop' := if stop <? 0 then Z.max (n + stop) 0 else Z.min stop n in
  String.substring 0 (Z.to_nat stop') s.

(** [s.center(width)]: CPython pads with [marg / 2 + (marg & width & 1)]
    blanks on the left and the rest on the right. *)
Definition center (s : string) (width : Z) : string :=
  let n := len s in
  if width <=? n then s
  else
    let marg := width - n in
    let left := marg / 2 + Z.land (Z.land marg width) 1 in
    str_mul " " left ++ s ++ str_mul " " (marg - left).

Definition CR : string := String (Ascii.ascii_of_nat 13) "".
Definition LF : string := String (Ascii.ascii_of_nat 10) "".

(** [colorama.Style.RESET_ALL] *)
Definition RESET_ALL : string := String (Ascii.ascii_of_nat 27) "[0m".

(** ** The glyph table [Boxes] *)

Module Boxes.
Definition horizontal : string := "─".
Definition vertical : string := "│".
Definition all : string := "┼".
Definition full : string := "■".
Definition empty : string := "□".
Definition up_left : string := "┘".
Definition up_right : string := "└".
Definition down_left : string := "┐".
Definition down_right : string := "┌".
Definition no_left : string := "├".
Definition no_right : string := "┤".
Definition no_up : string := "┬".
Definition no_down : string := "┴".
End Boxes.

(** ** Python values held in cells *)

(** What the table needs of a cell value: [str()] (the buffer's default),
    [type(v).__name__] and [str(v)]. *)
Class PyValue (V : Type) := {
  empty_str : V;
  type_name : V -> string;
  py_str : V -> string
}.

(** Cells that are themselves strings. *)
#[export] Instance string_PyValue : PyValue string := {|
  empty_str := "";
  type_name := fun _ => "str";
  py_str := fun s => s
|}.

(** ** Exceptions and results *)

Inductive exn : Type :=
| AssertionError (msg : string)
| ZeroDivisionError
| OverflowError.

Inductive result (A : Type) : Type :=
| Ok (a : A)
| Raise (e : exn).
Arguments Ok {A} a.
Arguments Raise {A} e.

(** ** The object and its world *)

Record ProgressTable (V : Type) : Type := mkTable {
  default_width : Z;
  columns : list string;
  num_rows : Z;
  widths : gmap string Z;
  colors : gmap string (option string);
  values : gmap string V;
  progress_bar_fps : Q;
  header_printed : bool;
  custom_formatting : gmap string (V -> V);
  needs_line_ending : bool;
  finished_rows : list (gmap string V)
}.
Arguments mkTable {V}.
Arguments default_width {V}.
Arguments columns {V}.
Arguments num_rows {V}.
Arguments widths {V}.
Arguments colors {V}.
Arguments values {V}.
Arguments progress_bar_fps {V}.
Arguments header_printed {V}.
Arguments custom_formatting {V}.
Arguments needs_line_ending {V}.
Arguments finished_rows {V}.

Record world (V : Type) : Type := mkWorld {
  self : ProgressTable V;
  stdout : list string;
  clock : nat -> Q;
  ticks : nat
}.
Arguments mkWorld {V}.
Arguments self {V}.
Arguments stdout {V}.
Arguments clock {V}.
Arguments ticks {V}.

(** [defaultdict.__getitem__]: a missing key is filled with the default. *)
Definition getitem_default {X : Type} (d : gmap string X) (k : string) (dflt : X)
  : X * gmap string X :=
  match d !! k with
  | Some x => (x, d)
  | None => (dflt, <[k := dflt]> d)
  end.

(** The value a [defaultdict] shows for a key, stored or not. *)
Definition peek {X : Type} (d : gmap string X) (k : string) (dflt : X) : X :=
  default dflt (d !! k).

(** ** A state and exception monad *)

Definition M (S A : Type) : Type := S -> result A * S.

Definition ret {S A : Type} (a : A) : M S A := fun w => (Ok a, w).

Definition bind {S A B : Type} (c : M S A) (k : A -> M S B) : M S B :=
  fun w =>
    match c w with
    | (Ok a, w') => k a w'
    | (Raise e, w') => (Raise e, w')
    end.

Definition raise {S A : Type} (e : exn) : M S A := fun w => (Raise e, w).

Notation "x <- c ;; k" := (bind c (fun x => k))
  (at level 100, c at next level, right associativity).
Notation "c ;; k" := (bind c (fun _ => k))
  (at level 100, right associativity).

(** [assert cond, msg] *)
Definition assert {S : Type} (cond : bool) (msg : string) : M S unit :=
  if cond then ret tt else raise (AssertionError msg).

(** [for x in xs: body(x)] *)
Fixpoint for_each {S X : Type} (xs : list X) (body : X -> M S unit) : M S unit :=
  match xs with
  | [] => ret tt
  | x :: xs' => body x ;; for_each xs' body
  end.

(** [[f(x) for x in xs]], with the effects of [f] in order *)
Fixpoint comprehension {S X Y : Type} (xs : list X) (f : X -> M S Y) : M S (list Y) :=
  match xs with
  | [] => ret []
  | x :: xs' => y <- f x ;; ys <- comprehension xs' f ;; ret (y :: ys)
  end.

Definition lift {S A : Type} (r : result A) : M S A := fun w => (r, w).

(** ** Python floats *)

(** A [float]: a finite binary64 number given by its exact value, an
    infinity, or NaN.  The sign of a zero is not kept; the table neither
    shows a negative zero nor divides by a zero without raising. *)
Inductive pyfloat : Type :=
| Finite (q : Q)
| PosInf
| NegInf
| NaN.

Definition Qgt_bool (a b : Q) : bool := negb (Qle_bool a b).

(** Rounding to the nearest integer, ties to even. *)
Definition round_half_even (q : Q) : Z :=
  let f := Qfloor q in
  match ((q - inject_Z f) ?= (1 # 2))%Q with
  | Lt => f
  | Gt => f + 1
  | Eq => if Z.even f then f else f + 1
  end.

Definition pow2 (e : Z) : Q := Qpower 2 e.

(** [floor(log2(a))] for [a > 0]. *)
Definition binade (a : Q) : Z :=
  if Qle_bool 1 a then Z.log2 (Qfloor a) else - Z.log2_up (Qceiling (/ a)).

(** The gap between neighbouring floats at [a >= 0]: [2^(e - 52)] in the
    binade [e] of [a], and [2^-1074] for the subnormal numbers below
    [2^-1022]. *)
Definition ulp (a : Q) : Q := pow2 (Z.max (binade a) (-1022) - 52).

(** The multiple of [u] nearest to [a], the even one on a tie. *)
Definition snap (u a : Q) : Q := (inject_Z (round_half_even (a / u)) * u)%Q.

(** The number with a 53-bit significand nearest to [q], ties to even, with
    gradual underflow: what a binary64 operation with the exact result [q]
    returns unless it overflows. *)
Definition round53 (q : Q) : Q :=
  if Qle_bool 0 q then snap (ulp (Qabs q)) (Qabs q)
  else (- snap (ulp (Qabs q)) (Qabs q))%Q.

(** The largest float is [2^1024 - 2^971]; an exact result of at least
    [2^1024 - 2^970] in magnitude rounds beyond it. *)
Definition overflow_threshold : Q := inject_Z (2 ^ 1024 - 2 ^ 970).

(** The float a binary64 operation returns for the exact result [q]. *)
Definition round64 (q : Q) : pyfloat :=
  if Qle_bool overflow_threshold (Qabs q)
  then (if Qle_bool 0 q then PosInf else NegInf)
  else Finite (round53 q).

(** [-x] *)
Definition float_neg (x : pyfloat) : pyfloat :=
  match x with
  | Finite q => Finite (- q)
  | PosInf => NegInf
  | NegInf => PosInf
  | NaN => NaN
  end.

(** [x + y] *)
Definition float_add (x y : pyfloat) : pyfloat :=
  match x, y with
  | Finite a, Finite b => round64 (a + b)
  | NaN, _ | _, NaN => NaN
  | PosInf, NegInf | NegInf, PosInf => NaN
  | PosInf, _ | _, PosInf => PosInf
  | NegInf, _ | _, NegInf => NegInf
  end.

(** [x - y] *)
Definition float_sub (x y : pyfloat) : pyfloat := float_add x (float_neg y).

(** [x > y] *)
Definition float_gt (x y : pyfloat) : bool :=
  match x, y with
  | NaN, _ | _, NaN => false
  | Finite a, Finite b => Qgt_bool a b
  | _, PosInf => false
  | PosInf, _ => true
  | NegInf, _ => false
  | Finite _, NegInf => true
  end.

(** [x / y] on floats: a zero divisor raises, whatever the dividend. *)
Definition float_truediv (x y : pyfloat) : result pyfloat :=
  match y with
  | Finite b =>
      if Qeq_bool b 0 then Raise ZeroDivisionError
      else Ok match x with
              | Finite a => round64 (a / b)
              | PosInf => if Qle_bool 0 b then PosInf else NegInf
              | NegInf => if Qle_bool 0 b then NegInf else PosInf
              | NaN => NaN
              end
  | PosInf | NegInf => Ok match x with Finite _ => Finite 0 | _ => NaN end
  | NaN => Ok NaN
  end.

(** [float(k)] for an int [k], as the mixed operation [k / x] converts it.
    (From [2^1024 - 2^970] on CPython raises [OverflowError] where this gives
    an infinity; the int converted here is a position in a list.) *)
Definition float_of_int (k : Z) : pyfloat := round64 (inject_Z k).

(** [a / b] on ints: the float nearest to the exact quotient, and
    [OverflowError] when that is beyond the largest float. *)
Definition int_truediv (a b : Z) : result Q :=
  if b =? 0 then Raise ZeroDivisionError
  else
    let q := (inject_Z a / inject_Z b)%Q in
    if Qle_bool overflow_threshold (Qabs q) then Raise OverflowError
    else Ok (round53 q).

(** ** Attribute assignment *)

Section Attributes.
Context {V : Type}.
Implicit Type t : ProgressTable V.

Definition set_columns (x : list string) t : ProgressTable V :=
  mkTable (default_width t) x (num_rows t) (widths t) (colors t) (values t)
    (progress_bar_fps t) (header_printed t) (custom_formatting t)
    (needs_line_ending t) (finished_rows t).

Definition set_num_rows (x : Z) t : ProgressTable V :=
  mkTable (default_width t) (columns t) x (widths t) (colors t) (values t)
    (progress_bar_fps t) (header_printed t) (custom_formatting t)
    (needs_line_ending t) (finished_rows t).

Definition set_widths (x : gmap string Z) t : ProgressTable V :=
  mkTable (default_width t) (columns t) (num_rows t) x (colors t) (values t)
    (progress_bar_fps t) (header_printed t) (custom_formatting t)
    (needs_line_ending t) (finished_rows t).

Definition set_colors (x : gmap string (option string)) t : ProgressTable V :=
  mkTable (default_width t) (columns t) (num_rows t) (widths t) x (values t)
    (progress_bar_fps t) (header_printed t) (custom_formatting t)
    (needs_line_ending t) (finished_rows t).

Definition set_values (x : gmap string V) t : ProgressTable V :=
  mkTable (default_width t) (columns t) (num_rows t) (widths t) (colors t) x
    (progress_bar_fps t) (header_printed t) (custom_formatting t)
    (needs_line_ending t) (finished_rows t).

Definition set_header_printed (x : bool) t : ProgressTable V :=
  mkTable (default_width t) (columns t) (num_rows t) (widths t) (colors t)
    (values t) (progress_bar_fps t) x (custom_formatting t)
    (needs_line_ending t) (finished_rows t).

Definition set_needs_line_ending (x : bool) t : ProgressTable V :=
  mkTable (default_width t) (columns t) (num_rows t) (widths t) (colors t)
    (values t) (progress_bar_fps t) (header_printed t) (custom_formatting t)
    x (finished_rows t).

Definition set_finished_rows (x : list (gmap string V)) t : ProgressTable V :=
  mkTable (default_width t) (columns t) (num_rows t) (widths t) (colors t)
    (values t) (progress_bar_fps t) (header_printed t) (custom_formatting t)
    (needs_line_ending t) x.

Definition set_self (t : ProgressTable V) (w : world V) : world V :=
  mkWorld t (stdout w) (clock w) (ticks w).

(** The object as it is now. *)
Definition get : M (world V) (ProgressTable V) := fun w => (Ok (self w), w).

(** An attribute assignment [self.x = ...]. *)
Definition modify (f : ProgressTable V -> ProgressTable V) : M (world V) unit :=
  fun w => (Ok tt, set_self (f (self w)) w).

(** [print(args..., sep=sep, end=end_)] writes the arguments joined by [sep],
    then [end_]. *)
Definition print (args : list string) (sep end_ : string) : M (world V) unit :=
  fun w =>
    (Ok tt, mkWorld (self w) (stdout w ++ [(String.concat sep args ++ end_)%string])
              (clock w) (ticks w)).

(** [time.time()] *)
Definition time_time : M (world V) pyfloat :=
  fun w =>
    (Ok (Finite (clock w (ticks w))),
     mkWorld (self w) (stdout w) (clock w) (S (ticks w))).

(** [self.widths[col]] *)
Definition widths_getitem (col : string) : M (world V) Z :=
  t <- get ;;
  let r := getitem_default (widths t) col (default_width t) in
  modify (set_widths (snd r)) ;;
  ret (fst r).

(** [self.colors[col]] *)
Definition colors_getitem (col : string) : M (world V) (option string) :=
  t <- get ;;
  let r := getitem_default (colors t) col None in
  modify (set_colors (snd r)) ;;
  ret (fst r).
End Attributes.

(** ** Number formatting *)

(** [f"{x: <.2f}"]: the value of the float rounded to two decimals, ties to
    even; blank fill and left alignment have no effect without a field
    width. *)
Definition format_2f (x : pyfloat) : string :=
  match x with
  | Finite q =>
      let n := Z.abs (round_half_even (q * inject_Z 100)) in
      let frac := n mod 100 in
      (if Qle_bool 0 q then "" else "-")
        ++ pretty (n / 100) ++ "." ++ pretty (frac / 10) ++ pretty (frac mod 10)
  | PosInf => "inf"
  | NegInf => "-inf"
  | NaN => "nan"
  end.

(** [sum(xs)] on floats: from the int [0], adding from left to right, each
    addition rounded (CPython up to 3.11; later versions compensate the
    rounding errors of the additions). *)
Definition sum (xs : list pyfloat) : pyfloat := fold_left float_add xs (Finite 0).

(** ** The methods of [ProgressTable] *)

Section Methods.
Context {V : Type} `{!PyValue V}.

Abbreviation Mw := (M (world V)).

(** [ProgressTable.__init__] *)
Definition init (columns : list string) (default_column_width : Z)
    (progress_bar_fps : Q) (custom_formatting : option (gmap string (V -> V)))
  : ProgressTable V :=
  {| default_width := default_column_width;
     columns := columns;
     num_rows := 0;
     widths := ∅;
     colors := ∅;
     values := ∅;
     progress_bar_fps := progress_bar_fps;
     header_printed := false;
     custom_formatting := default ∅ custom_formatting;
     needs_line_ending := false;
     finished_rows := [] |}.

Definition add_column (name : string) (width : option Z) (color : option string)
  : Mw unit :=
  t <- get ;;
  assert (negb (header_printed t)) "Header is already frozen!" ;;
  modify (fun t => set_columns (columns t ++ [name]) t) ;;
  t <- get ;;
  let width := match width with Some w => w | None => default_width t end in
  let width := if width <? len name then len name else width in
  match color with
  | Some c => modify (fun t => set_colors (<[name := Some c]> (colors t)) t)
  | None => ret tt
  end ;;
  modify (fun t => set_widths (<[name := width]> (widths t)) t).

Definition bar (left center right : string) : Mw unit :=
  t <- get ;;
  content <- comprehension (columns t) (fun col =>
    w <- widths_getitem col ;;
    ret (str_mul Boxes.horizontal (w + 2))) ;;
  let content := String.concat center content in
  let content := [left; content; right] in
  print [String.concat "" content] " " "".

Definition print_top_bar : Mw unit :=
  bar Boxes.down_right Boxes.no_up Boxes.down_left.

Definition print_bottom_bar : Mw unit :=
  bar Boxes.up_right Boxes.no_down Boxes.up_left.

Definition print_center_bar : Mw unit :=
  bar Boxes.no_left Boxes.all Boxes.no_right.

(** The colour decoration shared by the header and the rows. *)
Definition decorate (color : option string) (value : string) : string :=
  match color with
  | Some c => c ++ value ++ RESET_ALL
  | None => value
  end.

(** One turn of the loop of [print_header]: the cell of column [col]. *)
Definition header_cell (col : string) : Mw string :=
  width <- widths_getitem col ;;
  let value := center (slice_to col width) width in
  color <- colors_getitem col ;;
  ret (decorate color value).

Definition print_header : Mw unit :=
  print_top_bar ;;
  print [] " " LF ;;
  t <- get ;;
  content <- comprehension (columns t) header_cell ;;
  print [Boxes.vertical; String.concat " │ " content; Boxes.vertical] " " LF ;;
  modify (set_header_printed true) ;;
  print_center_bar ;;
  print [] " " LF.

(** [self.values[col]] *)
Definition values_getitem (col : string) : Mw V :=
  t <- get ;;
  let r := getitem_default (values t) col empty_str in
  modify (set_values (snd r)) ;;
  ret (fst r).

(** One turn of the loop of [print_row]: the cell of column [col]. *)
Definition row_cell (col : string) : Mw string :=
  value <- values_getitem col ;;
  width <- widths_getitem col ;;
  t <- get ;;
  let value_type := type_name value in
  let value :=
    match custom_formatting t !! value_type with
    | Some f => f value
    | None => value
    end in
  let value := center (slice_to (py_str value) width) width in
  color <- colors_getitem col ;;
  ret (decorate color value).

Definition print_row : Mw unit :=
  t <- get ;;
  (if header_printed t then ret tt else print_header) ;;
  t <- get ;;
  if (size (values t) =? 0)%nat then ret tt
  else
    modify (set_needs_line_ending true) ;;
    print [] " " CR ;;
    content <- comprehension (columns t) row_cell ;;
    print [Boxes.vertical; String.concat " │ " content; Boxes.vertical] " " "".

(** [finished_rows.append(self.values)] stores the buffer object itself, and
    [self.values] is bound to a fresh dictionary right after: no later write
    to the buffer reaches a history row, so the row is kept by value. *)
Definition next_row (save : bool) : Mw unit :=
  t <- get ;;
  (if needs_line_ending t
   then print [] " " LF ;; modify (set_needs_line_ending false)
   else ret tt) ;;
  t <- get ;;
  (if save && (0 <? size (values t))%nat
   then
     modify (fun t => set_finished_rows (finished_rows t ++ [values t]) t) ;;
     modify (fun t => set_num_rows (num_rows t + 1) t)
   else ret tt) ;;
  modify (set_values ∅).

Definition close : Mw unit :=
  print_row ;;
  next_row true ;;
  print_bottom_bar ;;
  modify (set_header_printed false) ;;
  print [] " " LF.

(** [sum(self.widths.values())] *)
Definition sum_values (d : gmap string Z) : Z :=
  map_fold (fun _ x acc => acc + x) 0 d.

(** [max(math.ceil(i / n * tot_width), 1)]: the quotient of two ints is a
    float, its product with the int [tot_width] is a float again, and
    [math.ceil] gives an int, or raises [OverflowError] when the product
    has overflowed to an infinity.  A [tot_width] that is itself beyond the
    largest float is one of the unbounded sizes: no error is modelled for
    it. *)
Definition num_hashes (i n tot_width : Z) : result Z :=
  match int_truediv i n with
  | Ok r =>
      let width := round53 (inject_Z tot_width) in
      let product := (r * width)%Q in
      if Qle_bool overflow_threshold (Qabs product)
         && negb (Qle_bool overflow_threshold (Qabs width))
      then Raise OverflowError
      else Ok (Z.max (Qceiling (round53 product)) 1)
  | Raise e => Raise e
  end.

Definition print_progress_bar (i n : Z) (show_before show_after : string)
  : Mw unit :=
  t <- get ;;
  let tot_width :=
    sum_values (widths t) + 3 * (Z.of_nat (size (widths t)) - 1) + 2 in
  let tot_width := tot_width - len show_before - len show_after in
  num_hashes <- lift (num_hashes i n tot_width) ;;
  let num_empty := tot_width - num_hashes in
  print [Boxes.vertical; show_before; str_mul Boxes.full num_hashes;
         str_mul Boxes.empty num_empty; show_after; Boxes.vertical] "" "".

(** [[row[col] for col in columns]] on one history row, a [defaultdict]. *)
Fixpoint read_row (cols : list string) (row : gmap string V)
  : list V * gmap string V :=
  match cols with
  | [] => ([], row)
  | col :: cols' =>
      let r := getitem_default row col empty_str in
      let rs := read_row cols' (snd r) in
      (fst r :: fst rs, snd rs)
  end.

(** The history rows are [defaultdict]s too: reading them fills in the
    columns they lack. *)
Definition to_list : Mw (list (list V)) :=
  t <- get ;;
  let read := map (read_row (columns t)) (finished_rows t) in
  modify (set_finished_rows (map snd read)) ;;
  ret (map fst read).

Definition display_custom (data : list (list V)) : Mw unit :=
  t <- get ;;
  (if header_printed t then close else ret tt) ;;
  for_each data (fun row =>
    t <- get ;;
    assert (length row =? length (columns t))%nat "" ;;
    for_each (zip (columns t) row) (fun '(key, value) =>
      modify (fun t => set_values (<[key := value]> (values t)) t)) ;;
    print_row ;;
    next_row false) ;;
  close.

Definition display : Mw unit :=
  t <- get ;;
  (if header_printed t then close else ret tt) ;;
  data <- to_list ;;
  display_custom data.

(** [repr] of a list of plain names *)
Definition repr_names (names : list string) : string :=
  ("[" ++ String.concat ", " (map (fun s => "'" ++ s ++ "'")%string names) ++ "]")%string.

(** [ProgressTable.__setitem__] *)
Definition setitem (key : string) (value : V) : Mw unit :=
  t <- get ;;
  assert (bool_decide (key ∈ columns t))
    ("Column " ++ key ++ " not in " ++ repr_names (columns t))%string ;;
  modify (fun t => set_values (<[key := value]> (values t)) t) ;;
  print_row.
End Methods.

(** ** Instrumented iteration: [ProgressTable.__call__]

    [__call__] is a generator function.  Its frame is the [generator]: not
    yet started, suspended at [yield] with its locals, or finished.  [next]
    runs the frame up to the following [yield] (returning the element) or to
    its end (returning [None], Python's [StopIteration]). *)

(** The argument of [__call__]: an object with [__len__], or one without. *)
Inductive iterable (A : Type) : Type :=
| Sized (xs : list A)
| Unsized (xs : list A).
Arguments Sized {A} xs.
Arguments Unsized {A} xs.

Inductive generator (A : Type) : Type :=
| Created (iterator : iterable A)
| Suspended (rest : list A) (idx length : Z) (time_measurements : list pyfloat)
    (t_last_printed t_last_step : pyfloat)
| Finished.
Arguments Created {A} iterator.
Arguments Suspended {A} rest idx length time_measurements t_last_printed t_last_step.
Arguments Finished {A}.

(** [idx / s if s > 0 else 0.] with [s = sum(time_measurements)] *)
Definition throughput (idx : Z) (time_measurements : list pyfloat)
  : result pyfloat :=
  let s := sum time_measurements in
  if float_gt s (Finite 0) then float_truediv (float_of_int idx) s
  else Ok (Finite 0).

(** [time.time() - t_last_printed > period] *)
Definition redraw_due (now t_last_printed period : pyfloat) : bool :=
  float_gt (float_sub now t_last_printed) period.

Section Iteration.
Context {V : Type} `{!PyValue V} {A : Type}.

Abbreviation Mw := (M (world V)).

(** The label shown in front of the bar. *)
Definition rate_label (iterations_per_sec : pyfloat) : string :=
  " [" ++ format_2f iterations_per_sec ++ " it/s] ".

(** The body of the [if] that fires a redraw. *)
Definition redraw (idx length : Z) (time_measurements : list pyfloat) : Mw unit :=
  print [] " " CR ;;
  iterations_per_sec <- lift (throughput idx time_measurements) ;;
  print_progress_bar idx length (rate_label iterations_per_sec) " ".

(** From the head of the [for] loop to the next [yield], or to the end. *)
Definition loop_head (rest : list A) (idx length : Z)
    (time_measurements : list pyfloat) (t_last_printed t_last_step : pyfloat)
  : Mw (option A * generator A) :=
  match rest with
  | [] => print_row ;; ret (None, Finished)
  | element :: rest' =>
      now <- time_time ;;
      t <- get ;;
      period <- lift (float_truediv (Finite 1) (Finite (progress_bar_fps t))) ;;
      t_last_printed <-
        (if redraw_due now t_last_printed period
         then
           redraw idx length time_measurements ;;
           time_time
         else ret t_last_printed) ;;
      ret (Some element,
           Suspended rest' idx length time_measurements t_last_printed t_last_step)
  end.

Definition next (g : generator A) : Mw (option A * generator A) :=
  match g with
  | Created iterator =>
      t <- get ;;
      (if header_printed t then ret tt else print_header) ;;
      match iterator with
      | Unsized _ => raise (AssertionError "")
      | Sized xs =>
          let length := Z.of_nat (length xs) in
          t_last_step <- time_time ;;
          loop_head xs 0 length [] NegInf t_last_step
      end
  | Suspended rest idx length time_measurements t_last_printed t_last_step =>
      now <- time_time ;;
      let time_measurements := time_measurements ++ [float_sub now t_last_step] in
      t_last_step <- time_time ;;
      loop_head rest (idx + 1) length time_measurements t_last_printed t_last_step
  | Finished => ret (None, Finished)
  end.

(** What the [for] statement does with the answer of [next]: stop at
    [StopIteration], else run the caller's body on the element and go on
    with [rest]. *)
Definition loop_body (body : A -> world V -> world V)
    (rest : generator A -> Mw (list A * generator A))
    (r : option A * generator A) : Mw (list A * generator A) :=
  match r with
  | (None, g') => ret ([], g')
  | (Some element, g') =>
      (fun w => (Ok tt, body element w)) ;;
      r' <- rest g' ;;
      ret (element :: fst r', snd r')
  end.

(** [for element in table(iterator): body(element)], at most [fuel] calls
    of [next]: the elements the caller saw, and the frame it was left in.
    The body is the caller's code, any change of the world. *)
Fixpoint consume (fuel : nat) (g : generator A) (body : A -> world V -> world V)
  : Mw (list A * generator A) :=
  match fuel with
  | O => ret ([], g)
  | S fuel' =>
      r <- next g ;;
      loop_body body (fun g' => consume fuel' g' body) r
  end.
End Iteration.

(** ** Histories of calls *)

(** One call of a method from outside. *)
Inductive call (V : Type) : Type :=
| CallAddColumn (name : string) (width : option Z) (color : option string)
| CallBar (left center right : string)
| CallPrintHeader
| CallPrintRow
| CallNextRow (save : bool)
| CallClose
| CallPrintProgressBar (i n : Z) (show_before show_after : string)
| CallToList
| CallDisplayCustom (data : list (list V))
| CallDisplay
| CallSetItem (key : string) (value : V)
| CallNext (g : generator V).
Arguments CallAddColumn {V} name width color.
Arguments CallBar {V} left center right.
Arguments CallPrintHeader {V}.
Arguments CallPrintRow {V}.
Arguments CallNextRow {V} save.
Arguments CallClose {V}.
Arguments CallPrintProgressBar {V} i n show_before show_after.
Arguments CallToList {V}.
Arguments CallDisplayCustom {V} data.
Arguments CallDisplay {V}.
Arguments CallSetItem {V} key value.
Arguments CallNext {V} g.

Section Histories.
Context {V : Type} `{!PyValue V}.

Definition perform (c : call V) : M (world V) unit :=
  match c with
  | CallAddColumn name width color => add_column name width color
  | CallBar l c r => bar l c r
  | CallPrintHeader => print_header
  | CallPrintRow => print_row
  | CallNextRow save => next_row save
  | CallClose => close
  | CallPrintProgressBar i n show_before show_after =>
      print_progress_bar i n show_before show_after
  | CallToList => to_list ;; ret tt
  | CallDisplayCustom data => display_custom data
  | CallDisplay => display
  | CallSetItem key value => setitem key value
  | CallNext g => next g ;; ret tt
  end.

(** A caller that goes on after an exception: the world after the calls. *)
Fixpoint perform_all (cs : list (call V)) (w : world V) : world V :=
  match cs with
  | [] => w
  | c :: cs' => perform_all cs' (snd (perform c w))
  end.

(** Every [add_column] of the history names a column not yet declared. *)
Fixpoint fresh_names (cs : list (call V)) (w : world V) : Prop :=
  match cs with
  | [] => True
  | c :: cs' =>
      match c with
      | CallAddColumn name _ _ => name ∉ columns (self w)
      | _ => True
      end ∧ fresh_names cs' (snd (perform c w))
  end.

(** The display width of a column: [self.widths[col]]. *)
Definition width_of (t : ProgressTable V) (col : string) : Z :=
  peek (widths t) col (default_width t).
End Histories.

(** ** Reasoning about computations *)

(** [keeps f c]: whatever [c] does, and whether or not it raises, it leaves
    the observation [f] of the object as it was. *)
Definition keeps {V X A : Type} (f : ProgressTable V -> X) (c : M (world V) A)
  : Prop :=
  forall w, f (self (snd (c w))) = f (self w).

(** [succeeds c]: [c] returns normally from every world. *)
Definition succeeds {V A : Type} (c : M (world V) A) : Prop :=
  forall w, exists a w', c w = (Ok a, w').

(** The buffer or a history row after [row[col]] was read for each of
    [cols]. *)
Definition vivify {X : Type} (dflt : X) (cols : list string) (d : gmap string X)
  : gmap string X :=
  foldl (fun d col => snd (getitem_default d col dflt)) d cols.

(** [[row[col] for col in cols]] as a value: what each cell reads as. *)
Definition cells_of {V : Type} `{!PyValue V} (cols : list string) (row : gmap string V) : list V :=
  map (fun col => peek row col empty_str) cols.

(** ** Sample tables

    Concrete tables and worlds on which the properties below are exercised. *)

Definition sample_clock (n : nat) : Q := (inject_Z (Z.of_nat n) / 20)%Q.
Definition training_table : ProgressTable string := init ["epoch"; "loss"] 8 10%Q None.
Definition training_world : world string := mkWorld training_table [] sample_clock 0.

Definition pending_world : world string := snd (setitem "epoch" "1" training_world).

Definition empty_world : world string := mkWorld (init [] 8 10%Q None) [] sample_clock 0.
Definition long_name_table : ProgressTable string := init ["train accuracy"] 8 10%Q None.
Definition long_name_world : world string := mkWorld long_name_table [] sample_clock 0.
Definition one_column_world : world string := mkWorld (init ["epoch"] 8 10%Q None) [] sample_clock 0.
Definition zero_fps_world : world string := mkWorld (init ["epoch"] 8 0%Q None) [] sample_clock 0.

(** Clocks whose readings are floats: a sixteenth and a sixty-fourth of a
    second per reading. *)
Definition sixteenth_clock (n : nat) : Q := (inject_Z (Z.of_nat n) / 16)%Q.
Definition quick_clock (n : nat) : Q := (inject_Z (Z.of_nat n) / 64)%Q.
Definition timed_world : world string := mkWorld training_table [] sixteenth_clock 0.
Definition quick_world : world string := mkWorld training_table [] quick_clock 0.

(** The worlds in which the first of three elements has been handed over. *)
Definition timed_world_at_first : world string :=
  snd (next (Created (Sized ["a"; "b"; "c"])) timed_world).
Definition quick_world_at_first : world string :=
  snd (next (Created (Sized ["a"; "b"; "c"])) quick_world).

(** [progress_bar_fps=5e-324], the least positive float. *)
Definition tiny_fps_world : world string :=
  mkWorld (init ["epoch"] 8 (Qmake 1 (2 ^ 1074)) None) [] sample_clock 0.
Definition write_epoch (element : string) (w : world string) : world string :=
  snd (setitem "epoch" element w).

(** ** A caller filling a row *)

(** [for key, value in writes: table[key] = value]: a caller filling a row. *)
Definition write_all {V : Type} `{!PyValue V} (writes : list (string * V))
  : M (world V) unit :=
  for_each writes (fun kv => setitem (fst kv) (snd kv)).

(** The value written last to [col] among [writes], if any. *)
Fixpoint last_write {V : Type} (writes : list (string * V)) (col : string)
  : option V :=
  match writes with
  | [] => None
  | (key, value) :: rest =>
      match last_write rest col with
      | Some v => Some v
      | None => if String.eqb key col then Some value else None
      end
  end.

(** ** Relations between the states of a table *)

(** [evolves R c]: whatever [c] does, and whether or not it raises, the
    object it leaves is related by [R] to the object it found. *)
Definition evolves {V A : Type} (R : ProgressTable V -> ProgressTable V -> Prop)
    (c : M (world V) A) : Prop :=
  forall w, R (self w) (self (snd (c w))).

(** Two rows that read the same in every column. *)
Definition same_cells {V : Type} `{!PyValue V} (row row' : gmap string V) : Prop :=
  forall col, peek row' col empty_str = peek row col empty_str.

(** The history of [t'] starts with the rows of [t], each reading as before. *)
Definition history_extends {V : Type} `{!PyValue V} (t t' : ProgressTable V) : Prop :=
  exists kept extra,
    finished_rows t' = kept ++ extra
    /\ Forall2 same_cells (finished_rows t) kept.

(** The row counter moved by as much as the history grew. *)
Definition rows_counted {V : Type} (t t' : ProgressTable V) : Prop :=
  num_rows t' - num_rows t
  = Z.of_nat (length (finished_rows t')) - Z.of_nat (length (finished_rows t)).

(** Every key of the buffer and of the history rows is a declared column. *)
Definition keys_declared {V : Type} (t : ProgressTable V) : Prop :=
  (forall k, is_Some (values t !! k) -> k ∈ columns t)
  /\ Forall (fun row : gmap string V => forall k, is_Some (row !! k) -> k ∈ columns t)
       (finished_rows t).

(** Every declared column is at least as wide as its name. *)
Definition widths_cover_names {V : Type} (t : ProgressTable V) : Prop :=
  forall col, col ∈ columns t -> len col <= width_of t col.

(** The constructor's settings are the same in both states. *)
Definition same_settings {V : Type} (t t' : ProgressTable V) : Prop :=
  default_width t' = default_width t
  /\ progress_bar_fps t' = progress_bar_fps t
  /\ custom_formatting t' = custom_formatting t.

(** What every method but [add_column] guarantees. *)
Definition rendering_step {V : Type} `{!PyValue V} (t t' : ProgressTable V) : Prop :=
  columns t' = columns t
  /\ same_settings t t'
  /\ (forall col, width_of t' col = width_of t col)
  /\ (forall col, peek (colors t') col None = peek (colors t) col None)
  /\ rows_counted t t'
  /\ history_extends t t'
  /\ (keys_declared t -> keys_declared t').

(** What every method guarantees. *)
Definition lifetime_step {V : Type} `{!PyValue V} (t t' : ProgressTable V) : Prop :=
  columns t `prefix_of` columns t'
  /\ same_settings t t'
  /\ rows_counted t t'
  /\ history_extends t t'
  /\ (keys_declared t -> keys_declared t')
  /\ (widths_cover_names t -> widths_cover_names t').

(** * Properties *)

(** ** Rounding to binary64 *)

Lemma round_half_even_Z z : round_half_even (inject_Z z) = z.
Proof.
  unfold round_half_even. rewrite Qfloor_Z.
  assert (E : (inject_Z z - inject_Z z ?= 1 # 2)%Q = Lt).
  { apply Qlt_alt. assert (E0 : (inject_Z z - inject_Z z == 0)%Q) by ring.
    rewrite E0. reflexivity. }
  now rewrite E.
Qed.

Lemma round_half_even_bounds q :
  Qfloor q <= round_half_even q <= Qfloor q + 1.
Proof.
  unfold round_half_even.
  destruct (_ ?= _)%Q; [destruct (Z.even _) | |]; lia.
Qed.

Lemma round_half_even_le q1 q2 :
  (q1 <= q2)%Q -> round_half_even q1 <= round_half_even q2.
Proof.
  intros Hle. pose proof (Qfloor_resp_le _ _ Hle) as Hf.
  destruct (Z.eq_dec (Qfloor q1) (Qfloor q2)) as [E | NE].
  - unfold round_half_even. rewrite <- E.
    assert (Hd : (q1 - inject_Z (Qfloor q1) <= q2 - inject_Z (Qfloor q1))%Q).
    { apply Qplus_le_l. exact Hle. }
    destruct (q1 - inject_Z (Qfloor q1) ?= 1 # 2)%Q eqn:E1;
      destruct (q2 - inject_Z (Qfloor q1) ?= 1 # 2)%Q eqn:E2;
      try (destruct (Z.even (Qfloor q1)); lia); try lia; exfalso.
    + apply Qeq_alt in E1. apply Qlt_alt in E2. rewrite E1 in Hd.
      exact (Qlt_not_le _ _ E2 Hd).
    + apply Qgt_alt in E1. apply Qeq_alt in E2. rewrite E2 in Hd.
      exact (Qlt_not_le _ _ E1 Hd).
    + apply Qgt_alt in E1. apply Qlt_alt in E2.
      exact (Qlt_not_le _ _ (Qlt_trans _ _ _ E2 E1) Hd).
  - pose proof (round_half_even_bounds q1). pose proof (round_half_even_bounds q2).
    lia.
Qed.

Lemma round_half_even_comp q1 q2 :
  (q1 == q2)%Q -> round_half_even q1 = round_half_even q2.
Proof.
  intros E. apply Z.le_antisymm; apply round_half_even_le; rewrite E; apply Qle_refl.
Qed.

Lemma pow2_pos e : (0 < pow2 e)%Q.
Proof. apply Qpower_0_lt. reflexivity. Qed.

Lemma pow2_add a b : (pow2 (a + b) == pow2 a * pow2 b)%Q.
Proof. apply Qpower_plus. discriminate. Qed.

Lemma pow2_le a b : a <= b -> (pow2 a <= pow2 b)%Q.
Proof. intros H. apply Qpower_le_compat_l; [exact H | discriminate]. Qed.

Lemma pow2_lt_inv a b : (pow2 a < pow2 b)%Q -> a < b.
Proof. intros H. apply (Qpower_lt_compat_l_inv 2); [exact H | reflexivity]. Qed.

Lemma pow2_Z e : 0 <= e -> (pow2 e == inject_Z (2 ^ e))%Q.
Proof. intros H. unfold pow2. now rewrite (Zpower_Qpower 2 e H). Qed.

Lemma pow2_opp e : (pow2 (- e) == / pow2 e)%Q.
Proof. apply Qpower_opp. Qed.

Lemma binade_spec a :
  (0 < a)%Q -> (pow2 (binade a) <= a)%Q /\ (a < pow2 (binade a + 1))%Q.
Proof.
  intros Ha. unfold binade. destruct (Qle_bool 1 a) eqn:E.
  - apply Qle_bool_iff in E.
    assert (Hf : 1 <= Qfloor a).
    { change 1 with (Qfloor 1). now apply Qfloor_resp_le. }
    assert (Hf0 : 0 < Qfloor a) by lia.
    pose proof (Z.log2_spec (Qfloor a) Hf0) as [Hlo Hhi].
    pose proof (Z.log2_nonneg (Qfloor a)) as Hnn.
    split.
    + rewrite (pow2_Z _ Hnn).
      apply Qle_trans with (inject_Z (Qfloor a)); [| apply Qfloor_le].
      rewrite <- Zle_Qle. exact Hlo.
    + assert (Hnn1 : 0 <= Z.log2 (Qfloor a) + 1) by lia.
      rewrite (pow2_Z _ Hnn1).
      apply Qlt_le_trans with (inject_Z (Qfloor a + 1)); [apply Qlt_floor |].
      rewrite <- Zle_Qle. unfold Z.succ in Hhi. lia.
  - assert (Hlt : (a < 1)%Q).
    { apply Qnot_le_lt. intros H. apply Qle_bool_iff in H. congruence. }
    assert (Hne : ~ (a == 0)%Q).
    { intros H. rewrite H in Ha. exact (Qlt_irrefl _ Ha). }
    assert (Hx : (1 < / a)%Q).
    { apply Qlt_shift_inv_l; [exact Ha | now rewrite Qmult_1_l]. }
    set (m := Qceiling (/ a)).
    assert (Hm : 1 < m).
    { rewrite Zlt_Qlt. apply Qlt_le_trans with (/ a)%Q; [exact Hx | apply Qle_ceiling]. }
    pose proof (Z.log2_up_spec m Hm) as [Hlo Hhi].
    pose proof (Z.log2_up_pos m Hm) as Hk.
    set (k := Z.log2_up m) in *.
    assert (Hax : (a * / a == 1)%Q) by now apply Qmult_inv_r.
    split.
    + rewrite pow2_opp. apply Qle_shift_inv_r; [apply pow2_pos |].
      rewrite <- Hax. apply Qmult_le_l; [exact Ha |].
      apply Qle_trans with (inject_Z m); [apply Qle_ceiling |].
      assert (Hk0 : 0 <= k) by lia.
      rewrite (pow2_Z k Hk0). now rewrite <- Zle_Qle.
    + replace (- k + 1) with (- (k - 1)) by lia.
      rewrite pow2_opp. apply Qlt_shift_inv_l; [apply pow2_pos |].
      rewrite <- Hax. apply Qmult_lt_l; [exact Ha |].
      apply Qle_lt_trans with (inject_Z (m - 1)); [| apply Qceiling_lt].
      assert (Hk1 : 0 <= k - 1) by lia.
      rewrite (pow2_Z (k - 1) Hk1). rewrite <- Zle_Qle.
      replace (Z.pred k) with (k - 1) in Hlo by lia. lia.
Qed.

Lemma snap_le u a b : (0 < u)%Q -> (a <= b)%Q -> (snap u a <= snap u b)%Q.
Proof.
  intros Hu Hab. unfold snap. apply Qmult_le_compat_r; [| now apply Qlt_le_weak].
  rewrite <- Zle_Qle. apply round_half_even_le.
  unfold Qdiv. apply Qmult_le_compat_r; [exact Hab |].
  apply Qlt_le_weak. now apply Qinv_lt_0_compat.
Qed.

Lemma snap_fix u a N : (0 < u)%Q -> (a == inject_Z N * u)%Q -> (snap u a == a)%Q.
Proof.
  intros Hu E. unfold snap.
  assert (Hne : ~ (u == 0)%Q).
  { intros H. rewrite H in Hu. exact (Qlt_irrefl _ Hu). }
  assert (E' : (a / u == inject_Z N)%Q).
  { rewrite E. now apply Qdiv_mult_l. }
  rewrite (round_half_even_comp _ _ E'), round_half_even_Z. now rewrite E.
Qed.

Lemma ulp_pos a : (0 < ulp a)%Q.
Proof. apply pow2_pos. Qed.

Lemma nearest_zero a : (a == 0)%Q -> (snap (ulp a) a == 0)%Q.
Proof.
  intros E.
  assert (F : (a == inject_Z 0 * ulp a)%Q).
  { transitivity 0%Q; [exact E | ring]. }
  transitivity a; [exact (snap_fix _ _ 0 (ulp_pos a) F) | exact E].
Qed.

Lemma nearest_pos_le a b :
  (0 < a)%Q -> (a <= b)%Q -> (snap (ulp a) a <= snap (ulp b) b)%Q.
Proof.
  intros Ha Hab.
  assert (Hb : (0 < b)%Q) by (eapply Qlt_le_trans; eauto).
  destruct (binade_spec a Ha) as [Ha1 Ha2].
  destruct (binade_spec b Hb) as [Hb1 Hb2].
  assert (He : binade a <= binade b).
  { assert (binade a < binade b + 1); [| lia].
    apply pow2_lt_inv. eapply Qle_lt_trans; [exact Ha1 |].
    eapply Qle_lt_trans; [exact Hab | exact Hb2]. }
  unfold ulp.
  set (xa := Z.max (binade a) (-1022)). set (xb := Z.max (binade b) (-1022)).
  destruct (Z.eq_dec xa xb) as [E | NE].
  - rewrite E. apply snap_le; [apply pow2_pos | exact Hab].
  - assert (Hx : xa + 1 <= xb /\ xb = binade b) by lia. destruct Hx as [Hx Exb].
    apply Qle_trans with (pow2 (xa + 1)).
    + assert (Efix : (pow2 (xa + 1) == inject_Z (2 ^ 53) * pow2 (xa - 52))%Q).
      { rewrite <- (pow2_Z 53) by lia. rewrite <- pow2_add.
        replace (53 + (xa - 52)) with (xa + 1) by lia. reflexivity. }
      rewrite <- (snap_fix (pow2 (xa - 52)) (pow2 (xa + 1)) (2 ^ 53)
                    (pow2_pos _) Efix).
      apply snap_le; [apply pow2_pos |].
      apply Qlt_le_weak. eapply Qlt_le_trans; [exact Ha2 |].
      apply pow2_le. lia.
    + apply Qle_trans with (pow2 xb); [apply pow2_le; lia |].
      assert (Efix : (pow2 xb == inject_Z (2 ^ 52) * pow2 (xb - 52))%Q).
      { rewrite <- (pow2_Z 52) by lia. rewrite <- pow2_add.
        replace (52 + (xb - 52)) with xb by lia. reflexivity. }
      rewrite <- (snap_fix (pow2 (xb - 52)) (pow2 xb) (2 ^ 52) (pow2_pos _) Efix).
      apply snap_le; [apply pow2_pos |]. rewrite Exb. exact Hb1.
Qed.

Lemma nearest_nonneg a : (0 <= a)%Q -> (0 <= snap (ulp a) a)%Q.
Proof.
  intros Ha. unfold snap. apply Qmult_le_0_compat.
  - change 0%Q with (inject_Z 0). rewrite <- Zle_Qle.
    rewrite <- (round_half_even_Z 0). apply round_half_even_le.
    apply Qmult_le_0_compat; [exact Ha |].
    apply Qlt_le_weak, Qinv_lt_0_compat, ulp_pos.
  - apply Qlt_le_weak, ulp_pos.
Qed.

Lemma nearest_le a b :
  (0 <= a)%Q -> (a <= b)%Q -> (snap (ulp a) a <= snap (ulp b) b)%Q.
Proof.
  intros Ha Hab. destruct (Qlt_le_dec 0 a) as [Hpos | Hle].
  - now apply nearest_pos_le.
  - rewrite (nearest_zero a) by (now apply Qle_antisym).
    apply nearest_nonneg. eapply Qle_trans; eauto.
Qed.

(** Rounding is monotone. *)
Lemma round53_le q1 q2 : (q1 <= q2)%Q -> (round53 q1 <= round53 q2)%Q.
Proof.
  intros Hle. unfold round53.
  destruct (Qle_bool 0 q1) eqn:E1; destruct (Qle_bool 0 q2) eqn:E2.
  - apply Qle_bool_iff in E1, E2.
    apply nearest_le; [apply Qabs_nonneg |].
    now rewrite !Qabs_pos.
  - exfalso. apply Qle_bool_iff in E1.
    assert (H : (0 <= q2)%Q) by (eapply Qle_trans; eauto).
    apply Qle_bool_iff in H. congruence.
  - apply Qle_trans with 0%Q; [| apply nearest_nonneg, Qabs_nonneg].
    apply (Qopp_le_compat 0). apply nearest_nonneg, Qabs_nonneg.
  - assert (H1 : (q1 <= 0)%Q).
    { apply Qlt_le_weak, Qnot_le_lt. intros H. apply Qle_bool_iff in H. congruence. }
    assert (H2 : (q2 <= 0)%Q).
    { apply Qlt_le_weak, Qnot_le_lt. intros H. apply Qle_bool_iff in H. congruence. }
    apply Qopp_le_compat. apply nearest_le; [apply Qabs_nonneg |].
    rewrite !Qabs_neg by assumption. now apply Qopp_le_compat.
Qed.

Lemma round53_comp q1 q2 : (q1 == q2)%Q -> (round53 q1 == round53 q2)%Q.
Proof.
  intros E. apply Qle_antisym; apply round53_le; rewrite E; apply Qle_refl.
Qed.

(** An integer below [2^53] in magnitude is a float. *)
Lemma nearest_Z z :
  0 <= z < 2 ^ 53 -> forall a, (a == inject_Z z)%Q -> (snap (ulp a) a == a)%Q.
Proof.
  intros Hz a E. destruct (Z.eq_dec z 0) as [-> | Hnz].
  - rewrite (nearest_zero a E). now rewrite E.
  - assert (Ha : (0 < a)%Q).
    { rewrite E. change 0%Q with (inject_Z 0). rewrite <- Zlt_Qlt. lia. }
    destruct (binade_spec a Ha) as [Ha1 _].
    assert (He : binade a < 53).
    { apply pow2_lt_inv. eapply Qle_lt_trans; [exact Ha1 |].
      rewrite E, (pow2_Z 53) by lia. rewrite <- Zlt_Qlt. lia. }
    unfold ulp. set (x := Z.max (binade a) (-1022)).
    apply (snap_fix _ _ (z * 2 ^ (52 - x)) (pow2_pos _)).
    rewrite inject_Z_mult, <- (pow2_Z (52 - x)) by lia.
    rewrite <- Qmult_assoc, <- pow2_add.
    replace (52 - x + (x - 52)) with 0 by lia.
    rewrite E. unfold pow2. simpl. ring.
Qed.

Lemma round53_Z z : Z.abs z < 2 ^ 53 -> (round53 (inject_Z z) == inject_Z z)%Q.
Proof.
  intros Hz. unfold round53. destruct (Qle_bool 0 (inject_Z z)) eqn:E.
  - apply Qle_bool_iff in E. change 0%Q with (inject_Z 0) in E.
    rewrite <- Zle_Qle in E.
    rewrite (nearest_Z z ltac:(lia)); apply Qabs_pos;
      change 0%Q with (inject_Z 0); rewrite <- Zle_Qle; lia.
  - assert (H : z < 0).
    { apply Z.lt_nge. intros H. rewrite Zle_Qle in H. apply Qle_bool_iff in H.
      change (inject_Z 0) with 0%Q in H. congruence. }
    assert (Eabs : (Qabs (inject_Z z) == inject_Z (- z))%Q).
    { rewrite Qabs_neg; [now rewrite inject_Z_opp |].
      change 0%Q with (inject_Z 0). rewrite <- Zle_Qle. lia. }
    rewrite (nearest_Z (- z) ltac:(lia) _ Eabs).
    rewrite Eabs, inject_Z_opp. ring.
Qed.

Section Frame.
Context {V : Type} `{!PyValue V}.

Lemma bind_ok {A B : Type} (c : M (world V) A) (k : A -> M (world V) B) w a w' :
  c w = (Ok a, w') -> bind c k w = k a w'.
Proof. intros H. unfold bind. now rewrite H. Qed.

Lemma bind_raise {A B : Type} (c : M (world V) A) (k : A -> M (world V) B) w e w' :
  c w = (Raise e, w') -> bind c k w = (Raise e, w').
Proof. intros H. unfold bind. now rewrite H. Qed.

Section Keeps.
Context {X : Type} (f : ProgressTable V -> X).

Lemma keeps_ret {A} (a : A) : keeps f (ret a).
Proof. intros w. reflexivity. Qed.

Lemma keeps_raise {A} e : keeps f (@raise (world V) A e).
Proof. intros w. reflexivity. Qed.

Lemma keeps_lift {A} (r : result A) : keeps f (lift r).
Proof. intros w. reflexivity. Qed.

Lemma keeps_get : keeps f get.
Proof. intros w. reflexivity. Qed.

Lemma keeps_print args sep end_ : keeps f (print args sep end_).
Proof. intros w. reflexivity. Qed.

Lemma keeps_time_time : keeps f time_time.
Proof. intros w. reflexivity. Qed.

Lemma keeps_assert cond msg : keeps f (assert cond msg).
Proof. intros w. destruct cond; reflexivity. Qed.

Lemma keeps_modify g : (forall t, f (g t) = f t) -> keeps f (modify g).
Proof. intros H w. simpl. apply H. Qed.

Lemma keeps_bind {A B} (c : M (world V) A) (k : A -> M (world V) B) :
  keeps f c -> (forall a, keeps f (k a)) -> keeps f (bind c k).
Proof.
  intros Hc Hk w. unfold bind.
  specialize (Hc w). destruct (c w) as [[a | e] w1]; simpl in *.
  - now rewrite Hk.
  - exact Hc.
Qed.

Lemma keeps_for_each {Y} (xs : list Y) body :
  (forall x, keeps f (body x)) -> keeps f (for_each xs body).
Proof.
  intros Hb. induction xs as [| x xs IH]; simpl.
  - apply keeps_ret.
  - apply keeps_bind; [apply Hb | intros _; exact IH].
Qed.

Lemma keeps_comprehension {Y Z} (xs : list Y) (g : Y -> M (world V) Z) :
  (forall x, keeps f (g x)) -> keeps f (comprehension xs g).
Proof.
  intros Hg. induction xs as [| x xs IH]; simpl.
  - apply keeps_ret.
  - apply keeps_bind; [apply Hg | intros y].
    apply keeps_bind; [exact IH | intros ys; apply keeps_ret].
Qed.
End Keeps.

Lemma succeeds_ret {A} (a : A) : succeeds (@ret (world V) A a).
Proof. intros w. now exists a, w. Qed.

Lemma succeeds_get : succeeds (@get V).
Proof. intros w. now exists (self w), w. Qed.

Lemma succeeds_modify g : succeeds (@modify V g).
Proof. intros w. eexists _, _. reflexivity. Qed.

Lemma succeeds_print args sep end_ : succeeds (@print V args sep end_).
Proof. intros w. eexists _, _. reflexivity. Qed.

Lemma succeeds_time_time : succeeds (@time_time V).
Proof. intros w. eexists _, _. reflexivity. Qed.

Lemma succeeds_bind {A B} (c : M (world V) A) (k : A -> M (world V) B) :
  succeeds c -> (forall a, succeeds (k a)) -> succeeds (bind c k).
Proof.
  intros Hc Hk w. destruct (Hc w) as (a & w1 & E).
  rewrite (bind_ok _ _ _ _ _ E). apply Hk.
Qed.

Lemma succeeds_for_each {Y} (xs : list Y) (body : Y -> M (world V) unit) :
  (forall x, succeeds (body x)) -> succeeds (for_each xs body).
Proof.
  intros Hb. induction xs as [| x xs IH]; simpl.
  - apply succeeds_ret.
  - apply succeeds_bind; [apply Hb | intros _; exact IH].
Qed.

Lemma succeeds_comprehension {Y Z} (xs : list Y) (g : Y -> M (world V) Z) :
  (forall x, succeeds (g x)) -> succeeds (comprehension xs g).
Proof.
  intros Hg. induction xs as [| x xs IH]; simpl.
  - apply succeeds_ret.
  - apply succeeds_bind; [apply Hg | intros y].
    apply succeeds_bind; [exact IH | intros ys; apply succeeds_ret].
Qed.
End Frame.

(** One step of a frame proof: split a sequence, go under a loop, or close a
    primitive; assignments that leave the observation alone close by
    computation. *)
Ltac keeps_step :=
  lazymatch goal with
  | |- keeps _ (bind _ _) => apply keeps_bind; [| intros ?]
  | |- keeps _ (ret _) => apply keeps_ret
  | |- keeps _ (raise _) => apply keeps_raise
  | |- keeps _ (lift _) => apply keeps_lift
  | |- keeps _ get => apply keeps_get
  | |- keeps _ (print _ _ _) => apply keeps_print
  | |- keeps _ time_time => apply keeps_time_time
  | |- keeps _ (assert _ _) => apply keeps_assert
  | |- keeps _ (modify _) => apply keeps_modify; intros ?; reflexivity
  | |- keeps _ (for_each _ _) => apply keeps_for_each; intros ?
  | |- keeps _ (comprehension _ _) => apply keeps_comprehension; intros ?
  | |- keeps _ (if ?b then _ else _) => destruct b
  | |- keeps _ (match ?x with _ => _ end) => destruct x
  end.

Ltac keeps_tac := repeat keeps_step; eauto.

Ltac succeeds_step :=
  lazymatch goal with
  | |- succeeds (bind _ _) => apply succeeds_bind; [| intros ?]
  | |- succeeds (ret _) => apply succeeds_ret
  | |- succeeds get => apply succeeds_get
  | |- succeeds (print _ _ _) => apply succeeds_print
  | |- succeeds time_time => apply succeeds_time_time
  | |- succeeds (modify _) => apply succeeds_modify
  | |- succeeds (for_each _ _) => apply succeeds_for_each; intros ?
  | |- succeeds (comprehension _ _) => apply succeeds_comprehension; intros ?
  | |- succeeds (if ?b then _ else _) => destruct b
  | |- succeeds (match ?x with _ => _ end) => destruct x
  end.

Ltac succeeds_tac := repeat succeeds_step; eauto.

(** ** What the methods leave alone *)

Section MethodFrames.
Context {V : Type} `{!PyValue V} {X : Type} (f : ProgressTable V -> X).

Hypothesis f_widths : forall x t, f (set_widths x t) = f t.
Hypothesis f_colors : forall x t, f (set_colors x t) = f t.
Hypothesis f_header_printed : forall x t, f (set_header_printed x t) = f t.
Hypothesis f_values : forall x t, f (set_values x t) = f t.
Hypothesis f_needs_line_ending : forall x t, f (set_needs_line_ending x t) = f t.
Hypothesis f_finished_rows : forall x t, f (set_finished_rows x t) = f t.
Hypothesis f_num_rows : forall x t, f (set_num_rows x t) = f t.

Local Ltac frame :=
  repeat (first [ keeps_step
                | apply keeps_modify; intros ?; cbv beta; solve [auto] ]);
  auto.

Lemma keeps_widths_getitem col : keeps f (widths_getitem col).
Proof using f_widths. unfold widths_getitem. frame. Qed.

Lemma keeps_colors_getitem col : keeps f (colors_getitem col).
Proof using f_colors. unfold colors_getitem. frame. Qed.

Lemma keeps_values_getitem col : keeps f (values_getitem col).
Proof using f_values. unfold values_getitem. frame. Qed.

Hint Resolve keeps_widths_getitem keeps_colors_getitem keeps_values_getitem : core.

Lemma keeps_bar l c r : keeps f (bar l c r).
Proof using f_widths. unfold bar. frame. Qed.

Hint Resolve keeps_bar : core.

Lemma keeps_header_cell col : keeps f (header_cell col).
Proof using f_widths f_colors. unfold header_cell. frame. Qed.

Lemma keeps_row_cell col : keeps f (row_cell col).
Proof using f_widths f_colors f_values. unfold row_cell. frame. Qed.

Hint Resolve keeps_header_cell keeps_row_cell : core.

Lemma keeps_print_header : keeps f print_header.
Proof using f_widths f_colors f_header_printed.
  unfold print_header, print_top_bar, print_center_bar. frame.
Qed.

Hint Resolve keeps_print_header : core.

Lemma keeps_print_row : keeps f print_row.
Proof using f_widths f_colors f_header_printed f_values f_needs_line_ending.
  unfold print_row. frame.
Qed.

Lemma keeps_print_progress_bar i n before after :
  keeps f (print_progress_bar i n before after).
Proof using Type. unfold print_progress_bar. frame. Qed.

Lemma keeps_next_row save : keeps f (next_row save).
Proof using f_values f_needs_line_ending f_finished_rows f_num_rows.
  unfold next_row. frame.
Qed.

Hint Resolve keeps_print_row keeps_print_progress_bar keeps_next_row : core.

Lemma keeps_close : keeps f close.
Proof using All. unfold close, print_bottom_bar. frame. Qed.

Lemma keeps_to_list : keeps f to_list.
Proof using f_finished_rows. unfold to_list. frame. Qed.

Hint Resolve keeps_close keeps_to_list : core.

Lemma keeps_display_custom data : keeps f (display_custom data).
Proof using All. unfold display_custom. frame. Qed.

Hint Resolve keeps_display_custom : core.

Lemma keeps_display : keeps f display.
Proof using All. unfold display. frame. Qed.

Lemma keeps_setitem key value : keeps f (setitem key value).
Proof using f_widths f_colors f_header_printed f_values f_needs_line_ending.
  unfold setitem. frame.
Qed.

Lemma keeps_redraw idx length tm : keeps f (redraw idx length tm).
Proof using Type. unfold redraw. frame. Qed.

Hint Resolve keeps_redraw : core.

Lemma keeps_loop_head {A} (rest : list A) idx length tm tlp tls :
  keeps f (loop_head rest idx length tm tlp tls).
Proof using f_widths f_colors f_header_printed f_values f_needs_line_ending.
  unfold loop_head. frame.
Qed.

Hint Resolve keeps_loop_head : core.

Lemma keeps_next {A} (g : generator A) : keeps f (next g).
Proof using f_widths f_colors f_header_printed f_values f_needs_line_ending.
  unfold next. frame.
Qed.
End MethodFrames.

(** ** What always returns *)

Section MethodsReturn.
Context {V : Type} `{!PyValue V}.

Lemma succeeds_widths_getitem col : succeeds (@widths_getitem V col).
Proof. unfold widths_getitem. succeeds_tac. Qed.

Lemma succeeds_colors_getitem col : succeeds (@colors_getitem V col).
Proof. unfold colors_getitem. succeeds_tac. Qed.

Lemma succeeds_values_getitem col : succeeds (values_getitem (V := V) col).
Proof. unfold values_getitem. succeeds_tac. Qed.

Hint Resolve succeeds_widths_getitem succeeds_colors_getitem
  succeeds_values_getitem : core.

Lemma succeeds_bar l c r : succeeds (@bar V l c r).
Proof. unfold bar. succeeds_tac. Qed.

Hint Resolve succeeds_bar : core.

Lemma succeeds_header_cell col : succeeds (@header_cell V col).
Proof. unfold header_cell. succeeds_tac. Qed.

Lemma succeeds_row_cell col : succeeds (row_cell (V := V) col).
Proof. unfold row_cell. succeeds_tac. Qed.

Hint Resolve succeeds_header_cell succeeds_row_cell : core.

Lemma succeeds_print_header : succeeds (@print_header V).
Proof. unfold print_header, print_top_bar, print_center_bar. succeeds_tac. Qed.

Hint Resolve succeeds_print_header : core.

Lemma succeeds_print_row : succeeds (print_row (V := V)).
Proof. unfold print_row. succeeds_tac. Qed.

Lemma succeeds_next_row save : succeeds (@next_row V save).
Proof. unfold next_row. succeeds_tac. Qed.

Hint Resolve succeeds_print_row succeeds_next_row : core.

Lemma succeeds_close : succeeds (close (V := V)).
Proof. unfold close, print_bottom_bar. succeeds_tac. Qed.

Lemma succeeds_to_list : succeeds (to_list (V := V)).
Proof. unfold to_list. succeeds_tac. Qed.

Lemma float_truediv_ok a b :
  ~ (b == 0)%Q -> float_truediv (Finite a) (Finite b) = Ok (round64 (a / b)).
Proof.
  intros Hb. unfold float_truediv.
  destruct (Qeq_bool b 0) eqn:E; [| reflexivity].
  apply Qeq_bool_iff in E. contradiction.
Qed.

Lemma inject_Z_nonzero n : n <> 0 -> ~ (inject_Z n == 0)%Q.
Proof. intros Hn E. apply Hn. unfold Qeq in E. simpl in E. lia. Qed.

(** A quotient of two ints with [|i| <= |n|] is at most one in magnitude. *)
Lemma Qabs_quotient_le_1 i n :
  n <> 0 -> Z.abs i <= Z.abs n -> (Qabs (inject_Z i / inject_Z n) <= 1)%Q.
Proof.
  intros Hn Hi. unfold Qdiv. rewrite Qabs_Qmult, Qabs_Qinv.
  change (Qabs (inject_Z i)) with (inject_Z (Z.abs i)).
  change (Qabs (inject_Z n)) with (inject_Z (Z.abs n)).
  apply Qle_shift_div_r.
  - change 0%Q with (inject_Z 0). rewrite <- Zlt_Qlt. lia.
  - rewrite Qmult_1_l. now rewrite <- Zle_Qle.
Qed.

Lemma no_overflow_below_1 q :
  (Qabs q <= 1)%Q -> Qle_bool overflow_threshold (Qabs q) = false.
Proof.
  intros Hq. destruct (Qle_bool overflow_threshold (Qabs q)) eqn:E; [| reflexivity].
  apply Qle_bool_iff in E. exfalso.
  assert (H : (overflow_threshold <= 1)%Q) by (eapply Qle_trans; eauto).
  revert H. unfold overflow_threshold. change 1%Q with (inject_Z 1).
  rewrite <- Zle_Qle. apply Z.lt_nge. reflexivity.
Qed.

(** Within [|i| <= |n|] the quotient of two ints is a float. *)
Lemma int_truediv_ok i n :
  n <> 0 -> Z.abs i <= Z.abs n ->
  int_truediv i n = Ok (round53 (inject_Z i / inject_Z n)).
Proof.
  intros Hn Hi. unfold int_truediv.
  destruct (n =? 0) eqn:E; [apply Z.eqb_eq in E; contradiction |].
  now rewrite (no_overflow_below_1 _ (Qabs_quotient_le_1 i n Hn Hi)).
Qed.

(** Rounding keeps a number within [-1, 1]. *)
Lemma round53_abs_le_1 q : (Qabs q <= 1)%Q -> (Qabs (round53 q) <= 1)%Q.
Proof.
  intros H. apply Qabs_Qle_condition in H. destruct H as [H1 H2].
  apply Qabs_Qle_condition. split.
  - assert (E : (round53 (inject_Z (-1)) == inject_Z (-1))%Q)
      by (apply round53_Z; reflexivity).
    change (- (1))%Q with (inject_Z (-1)). rewrite <- E. now apply round53_le.
  - assert (E : (round53 (inject_Z 1) == inject_Z 1)%Q)
      by (apply round53_Z; reflexivity).
    change 1%Q with (inject_Z 1). rewrite <- E. now apply round53_le.
Qed.

(** Within [|i| <= |n|] nothing overflows: the fill count is there. *)
Lemma num_hashes_ok i n tot_width :
  n <> 0 -> Z.abs i <= Z.abs n ->
  num_hashes i n tot_width
  = Ok (Z.max (Qceiling (round53 (round53 (inject_Z i / inject_Z n)
                                   * round53 (inject_Z tot_width)))) 1).
Proof.
  intros Hn Hi. unfold num_hashes. rewrite (int_truediv_ok _ _ Hn Hi).
  cbv zeta.
  destruct (Qle_bool overflow_threshold (Qabs (round53 (inject_Z tot_width))))
    eqn:Ew; [now rewrite andb_false_r |].
  destruct (Qle_bool overflow_threshold
              (Qabs (round53 (inject_Z i / inject_Z n)
                     * round53 (inject_Z tot_width)))) eqn:Ep; [| reflexivity].
  exfalso. apply Qle_bool_iff in Ep.
  assert (Hw : ~ (overflow_threshold <= Qabs (round53 (inject_Z tot_width)))%Q).
  { intros H. apply Qle_bool_iff in H. congruence. }
  apply Hw. eapply Qle_trans; [exact Ep |].
  rewrite Qabs_Qmult. rewrite <- (Qmult_1_l (Qabs (round53 (inject_Z tot_width)))) at 2.
  apply Qmult_le_compat_r; [| apply Qabs_nonneg].
  apply round53_abs_le_1. now apply Qabs_quotient_le_1.
Qed.

Lemma succeeds_print_progress_bar i n before after :
  n <> 0 -> Z.abs i <= Z.abs n ->
  succeeds (@print_progress_bar V i n before after).
Proof.
  intros Hn Hi. unfold print_progress_bar.
  apply succeeds_bind; [apply succeeds_get | intros t].
  rewrite (num_hashes_ok _ _ _ Hn Hi).
  apply succeeds_bind; [| intros ?; apply succeeds_print].
  intros w. now eexists _, w.
Qed.

Lemma Qgt_bool_true a b : Qgt_bool a b = true -> (b < a)%Q.
Proof.
  unfold Qgt_bool. intros H. apply negb_true_iff in H.
  apply Qnot_le_lt. intros Hle. apply Qle_bool_iff in Hle. congruence.
Qed.

Lemma Qgt_bool_false a b : Qgt_bool a b = false -> (a <= b)%Q.
Proof.
  unfold Qgt_bool. intros H. apply negb_false_iff in H.
  now apply Qle_bool_iff.
Qed.

(** A float above zero is a divisor that does not raise. *)
Lemma float_truediv_by_positive x s :
  float_gt s (Finite 0) = true -> exists v, float_truediv x s = Ok v.
Proof.
  intros Hs. destruct s as [q | | |]; simpl in Hs; try discriminate.
  - apply Qgt_bool_true in Hs. unfold float_truediv.
    destruct (Qeq_bool q 0) eqn:E; [| eexists; reflexivity].
    apply Qeq_bool_iff in E. rewrite E in Hs. now apply Qlt_irrefl in Hs.
  - eexists. reflexivity.
Qed.

(** The guard [s > 0] keeps the division away from a zero divisor. *)
Lemma throughput_ok idx tm : exists v, throughput idx tm = Ok v.
Proof.
  unfold throughput. destruct (float_gt (sum tm) (Finite 0)) eqn:E.
  - now apply float_truediv_by_positive.
  - eexists. reflexivity.
Qed.

Lemma succeeds_redraw idx length tm :
  length <> 0 -> Z.abs idx <= Z.abs length ->
  succeeds (@redraw V idx length tm).
Proof.
  intros Hn Hi. unfold redraw. destruct (throughput_ok idx tm) as [v ->].
  apply succeeds_bind; [apply succeeds_print | intros _].
  apply succeeds_bind; [intros w; now eexists _, w | intros r].
  now apply succeeds_print_progress_bar.
Qed.
End MethodsReturn.

(** ** Cell writes and row advance *)

Section WritesAndRows.
Context {V : Type} `{!PyValue V}.

(** C3. A cell write [table[key] = value] whose key is not a declared
    column raises an assertion error, and the whole world, in particular
    the row buffer and the row history, is left as it was. *)
Theorem setitem_unknown_column_fails (w : world V) (key : string) (value : V) :
  key ∉ columns (self w) ->
  exists msg, setitem key value w = (Raise (AssertionError msg), w).
Proof.
  intros Hkey. unfold setitem, bind, get, assert. simpl.
  rewrite bool_decide_eq_false_2 by exact Hkey.
  eexists. reflexivity.
Qed.

Lemma size_zero_iff (d : gmap string V) : (size d =? 0)%nat = true <-> d = ∅.
Proof. rewrite Nat.eqb_eq. apply map_size_empty_iff. Qed.

Lemma size_pos_iff (d : gmap string V) : (0 <? size d)%nat = true <-> d <> ∅.
Proof.
  rewrite Nat.ltb_lt. rewrite <- map_size_empty_iff. lia.
Qed.

(** What [next_row] does to the object, whatever it prints. *)
Lemma next_row_effect save (w : world V) :
  exists out,
    next_row save w
    = (Ok tt,
       mkWorld
         (set_values ∅
            (if save && (0 <? size (values (self w)))%nat
             then set_num_rows (num_rows (self w) + 1)
                    (set_finished_rows (finished_rows (self w) ++ [values (self w)])
                       (set_needs_line_ending false (self w)))
             else set_needs_line_ending false (self w)))
         out (clock w) (ticks w)).
Proof.
  unfold next_row, bind, get. simpl.
  destruct w as [[dw cols nr ws cs vs fps hp cf nle fr] out clk tk]; simpl.
  destruct nle, save; simpl; destruct (0 <? size vs)%nat; simpl; eexists; reflexivity.
Qed.

(** C5. [next_row(save=True)] returns normally and empties the buffer in
    every case; it appends the buffer to the history and adds one to the
    row counter exactly when the buffer is not empty; a second call right
    after the first changes neither history nor counter. *)
Theorem next_row_saves_iff_nonempty (w : world V) :
  let w1 := snd (next_row true w) in
  let w2 := snd (next_row true w1) in
  fst (next_row true w) = Ok tt
  /\ values (self w1) = ∅
  /\ (values (self w) <> ∅ ->
      finished_rows (self w1) = finished_rows (self w) ++ [values (self w)]
      /\ num_rows (self w1) = num_rows (self w) + 1)
  /\ (values (self w) = ∅ ->
      finished_rows (self w1) = finished_rows (self w)
      /\ num_rows (self w1) = num_rows (self w))
  /\ finished_rows (self w2) = finished_rows (self w1)
  /\ num_rows (self w2) = num_rows (self w1).
Proof.
  intros w1 w2. subst w2.
  destruct (next_row_effect true w1) as [out2 E2]. rewrite E2. clear E2.
  subst w1. destruct (next_row_effect true w) as [out E]. rewrite E. clear E.
  simpl. rewrite map_size_empty. simpl.
  split; [reflexivity |]. split; [reflexivity |].
  split; [| split; [| split; reflexivity]].
  - intros Hne. apply size_pos_iff in Hne. now rewrite Hne.
  - intros He. now rewrite He, map_size_empty.
Qed.
End WritesAndRows.

(** ** Reading dictionaries with defaults *)

Section Defaults.
Context {X : Type}.
Implicit Types (d : gmap string X) (dflt : X).

Lemma fst_getitem_default d k dflt :
  fst (getitem_default d k dflt) = peek d k dflt.
Proof. unfold getitem_default, peek. now destruct (d !! k). Qed.

Lemma lookup_getitem_default d k dflt j x :
  d !! j = Some x -> snd (getitem_default d k dflt) !! j = Some x.
Proof.
  intros Hj. unfold getitem_default. destruct (d !! k) eqn:Hk; simpl; [exact Hj |].
  rewrite lookup_insert_ne; [exact Hj | congruence].
Qed.

Lemma peek_getitem_default d k dflt j :
  peek (snd (getitem_default d k dflt)) j dflt = peek d j dflt.
Proof.
  unfold getitem_default, peek. destruct (d !! k) eqn:Hk; simpl; [reflexivity |].
  destruct (decide (k = j)) as [-> | Hne].
  - now rewrite lookup_insert_eq, Hk.
  - now rewrite lookup_insert_ne.
Qed.

Lemma lookup_vivify dflt cols d j x :
  d !! j = Some x -> vivify dflt cols d !! j = Some x.
Proof.
  revert d. induction cols as [| col cols IH]; intros d Hj; simpl; [exact Hj |].
  apply IH. now apply lookup_getitem_default.
Qed.

Lemma peek_vivify dflt cols d j :
  peek (vivify dflt cols d) j dflt = peek d j dflt.
Proof.
  revert d. induction cols as [| col cols IH]; intros d; simpl; [reflexivity |].
  rewrite IH. apply peek_getitem_default.
Qed.

Lemma vivify_nonempty dflt cols d : d <> ∅ -> vivify dflt cols d <> ∅.
Proof.
  intros Hne He. apply Hne. apply map_empty. intros j.
  destruct (d !! j) as [x |] eqn:Hj; [| reflexivity].
  apply (lookup_vivify dflt cols) in Hj. rewrite He in Hj.
  now rewrite lookup_empty in Hj.
Qed.
End Defaults.

Section Returning.
Context {V : Type}.

Lemma succeeds_snd {A} (c : M (world V) A) w :
  succeeds c -> exists a, c w = (Ok a, snd (c w)).
Proof. intros Hc. destruct (Hc w) as (a & w' & E). rewrite E. now exists a. Qed.

(** After a computation that returns, the rest runs from where it ended. *)
Lemma snd_bind {A B} (c : M (world V) A) (k : A -> M (world V) B) w :
  succeeds c -> exists a, bind c k w = k a (snd (c w)).
Proof.
  intros Hc. destruct (succeeds_snd c w Hc) as [a E]. exists a.
  now apply bind_ok.
Qed.

End Returning.

(** Frames for one attribute: the side conditions close by computation. *)
Ltac keeps_method :=
  first [ apply keeps_widths_getitem | apply keeps_colors_getitem
        | apply keeps_values_getitem | apply keeps_header_cell
        | apply keeps_row_cell | apply keeps_bar | apply keeps_print_header
        | apply keeps_print_row | apply keeps_print_progress_bar
        | apply keeps_next_row | apply keeps_close | apply keeps_to_list
        | apply keeps_display_custom | apply keeps_display
        | apply keeps_setitem | apply keeps_redraw | apply keeps_loop_head
        | apply keeps_next ];
  intros; reflexivity.

Ltac keeps_field := repeat first [ keeps_step | keeps_method ].

(** Run the first computation of a sequence, given that it returns. *)
Ltac run H :=
  lazymatch goal with
  | |- context [snd (bind ?c ?k ?w)] =>
      let a := fresh "a" in
      destruct (snd_bind c k w H) as [a ->]; cbv beta
  end.

(** Run a primitive step: [get], an assignment, [print] or [ret]. *)
Ltac run_prim := unfold bind at 1; simpl.

(** ** Header and row redraw *)

Section Rendering.
Context {V : Type} `{!PyValue V}.

Lemma succeeds_header_part (w : world V) :
  succeeds (if header_printed (self w) then @ret (world V) unit tt else print_header).
Proof. destruct (header_printed (self w)); [apply succeeds_ret | apply succeeds_print_header]. Qed.

Lemma print_header_sets_flag (w : world V) :
  header_printed (self (snd (print_header w))) = true.
Proof.
  unfold print_header.
  run (succeeds_bar (V := V) Boxes.down_right Boxes.no_up Boxes.down_left).
  do 2 run_prim.
  run (succeeds_comprehension (V := V) (columns (self (snd (print_top_bar w)))) header_cell succeeds_header_cell).
  do 2 run_prim.
  match goal with
  | |- header_printed (self (snd (?c ?w3))) = true =>
      assert (Hk : keeps header_printed c) by keeps_field
  end.
  now rewrite Hk.
Qed.

Lemma print_row_sets_flag (w : world V) :
  header_printed (self (snd (print_row w))) = true.
Proof.
  unfold print_row. run_prim.
  run (succeeds_header_part w).
  match goal with
  | |- header_printed (self (snd (?c ?w1))) = true =>
      assert (Hk : keeps header_printed c) by keeps_field
  end.
  rewrite Hk.
  destruct (header_printed (self w)) eqn:E; [exact E | apply print_header_sets_flag].
Qed.

Lemma row_cell_values col (w : world V) :
  values (self (snd (row_cell col w)))
  = snd (getitem_default (values (self w)) col empty_str).
Proof. reflexivity. Qed.

Lemma row_cells_values cols (w : world V) :
  values (self (snd (comprehension cols row_cell w)))
  = vivify empty_str cols (values (self w)).
Proof.
  revert w. induction cols as [| col cols IH]; intros w; simpl; [reflexivity |].
  run (succeeds_row_cell (V := V) col).
  run (succeeds_comprehension (V := V) cols row_cell succeeds_row_cell).
  unfold ret. cbn [snd]. rewrite IH. now rewrite row_cell_values.
Qed.

(** A row redraw with something in the buffer fills the buffer in for
    every column. *)
Lemma print_row_values (w : world V) :
  values (self w) <> ∅ ->
  values (self (snd (print_row w)))
  = vivify empty_str (columns (self w)) (values (self w)).
Proof.
  intros Hne. unfold print_row. run_prim.
  assert (Hv : keeps values (if header_printed (self w) then @ret (world V) unit tt else print_header))
    by keeps_field.
  assert (Hc : keeps columns (if header_printed (self w) then @ret (world V) unit tt else print_header))
    by keeps_field.
  specialize (Hv w). specialize (Hc w).
  run (succeeds_header_part w). run_prim.
  rewrite Hv, Hc.
  destruct (size (values (self w)) =? 0)%nat eqn:E.
  { apply size_zero_iff in E. contradiction. }
  run_prim. run_prim.
  run (succeeds_comprehension (V := V) (columns (self w)) row_cell succeeds_row_cell).
  unfold print. cbn [snd self]. rewrite row_cells_values. simpl. now rewrite Hv.
Qed.
End Rendering.

(** ** Header freeze, export and close *)

Section HeaderAndHistory.
Context {V : Type} `{!PyValue V}.

(** C7. Once the header has been rendered, and so in particular after any
    cell write that returned, [add_column] raises the assertion error
    [Header is already frozen!] and changes nothing. *)
Theorem add_column_after_header_fails (w : world V) name width color :
  header_printed (self w) = true
  \/ (exists w0 key value, setitem key value w0 = (Ok tt, w)) ->
  add_column name width color w
  = (Raise (AssertionError "Header is already frozen!"), w).
Proof.
  intros H.
  assert (Hp : header_printed (self w) = true).
  { destruct H as [H | (w0 & key & value & E)]; [exact H |].
    unfold setitem in E. unfold bind at 1 in E. simpl in E.
    destruct (bool_decide (key ∈ columns (self w0))); simpl in E;
      [| discriminate E].
    unfold bind at 1 in E. simpl in E.
    apply (f_equal snd) in E. simpl in E. rewrite <- E.
    apply print_row_sets_flag. }
  unfold add_column, bind, get, assert. simpl. now rewrite Hp.
Qed.

Lemma read_row_fst cols (row : gmap string V) :
  fst (read_row cols row) = cells_of cols row.
Proof.
  revert row. induction cols as [| col cols IH]; intros row; simpl; [reflexivity |].
  rewrite IH, fst_getitem_default. f_equal.
  unfold cells_of. apply map_ext. intros c. apply peek_getitem_default.
Qed.

Lemma to_list_result (w : world V) :
  fst (to_list w) = Ok (map (cells_of (columns (self w))) (finished_rows (self w))).
Proof.
  unfold to_list, bind, get. simpl. f_equal.
  rewrite map_map. apply map_ext. intros row. apply read_row_fst.
Qed.

(** C6. [to_list()] returns one row per history entry, in the order of the
    history, and each row holds the cell of every declared column in
    declaration order; a row finalised by [next_row] becomes the last row
    of what [to_list()] returns, after all rows finalised before it. *)
Theorem to_list_row_and_column_order (w : world V) :
  values (self w) <> ∅ ->
  fst (to_list w)
  = Ok (map (cells_of (columns (self w))) (finished_rows (self w)))
  /\ fst (to_list (snd (next_row true w)))
     = Ok (map (cells_of (columns (self w))) (finished_rows (self w))
           ++ [cells_of (columns (self w)) (values (self w))]).
Proof.
  intros Hne. split; [apply to_list_result |].
  rewrite to_list_result.
  destruct (next_row_effect true w) as [out E]. rewrite E. simpl.
  apply size_pos_iff in Hne. rewrite Hne. simpl.
  now rewrite map_app.
Qed.

(** C10. [close()] on a table whose buffer is not empty returns normally;
    the history gains one row, the buffer as the final redraw completed it
    (every cell reads as it did in the buffer); the row counter grows by
    one, the buffer is empty and the header flag is cleared. *)
Theorem close_saves_pending_row (w : world V) :
  values (self w) <> ∅ ->
  exists w',
    close w = (Ok tt, w')
    /\ finished_rows (self w')
       = finished_rows (self w)
         ++ [vivify empty_str (columns (self w)) (values (self w))]
    /\ (forall col,
          peek (vivify empty_str (columns (self w)) (values (self w))) col empty_str
          = peek (values (self w)) col empty_str)
    /\ num_rows (self w') = num_rows (self w) + 1
    /\ values (self w') = ∅
    /\ header_printed (self w') = false.
Proof.
  intros Hne.
  destruct (succeeds_snd close w succeeds_close) as [[] E].
  exists (snd (close w)). split; [exact E |]. clear E.
  split; [| split; [intros col; apply peek_vivify |]].
  all: unfold close; run (succeeds_print_row (V := V)).
  all: pose proof (print_row_values w Hne) as Hv.
  all: assert (Hf : keeps finished_rows (print_row (V := V))) by keeps_field.
  all: assert (Hn : keeps num_rows (print_row (V := V))) by keeps_field.
  all: specialize (Hf w); specialize (Hn w).
  all: set (w1 := snd (print_row w)) in *; clearbody w1.
  all: assert (Hne1 : (0 <? size (values (self w1)))%nat = true)
    by (apply size_pos_iff; rewrite Hv; now apply vivify_nonempty).
  all: destruct (next_row_effect true w1) as [out E].
  all: rewrite (bind_ok _ _ _ _ _ E); clear E; rewrite Hne1; simpl.
  all: run (succeeds_bar (V := V) Boxes.up_right Boxes.no_down Boxes.up_left).
  all: run_prim.
  all: match goal with
       | |- context [snd (print_bottom_bar ?w2)] =>
           assert (Hf2 : keeps finished_rows (print_bottom_bar (V := V)))
             by (unfold print_bottom_bar; keeps_field);
           assert (Hn2 : keeps num_rows (print_bottom_bar (V := V)))
             by (unfold print_bottom_bar; keeps_field);
           assert (Hv2 : keeps values (print_bottom_bar (V := V)))
             by (unfold print_bottom_bar; keeps_field);
           specialize (Hf2 w2); specialize (Hn2 w2); specialize (Hv2 w2)
       end.
  - rewrite Hf2. simpl. now rewrite Hf, Hv.
  - split; [| split; [| reflexivity]].
    + rewrite Hn2. simpl. now rewrite Hn.
    + rewrite Hv2. reflexivity.
Qed.
End HeaderAndHistory.

(** ** Instrumented iteration *)

Section IterationClaims.
Context {V : Type} `{!PyValue V} {A : Type}.

Lemma bind_assoc {B C D} (c : M (world V) B) (k : B -> M (world V) C)
    (k' : C -> M (world V) D) w :
  bind (bind c k) k' w = bind c (fun a => bind (k a) k') w.
Proof. unfold bind. destruct (c w) as [[a | e] w1]; reflexivity. Qed.

Lemma loop_head_yields (element : A) rest idx length tm tlp tls (w : world V) :
  ~ (progress_bar_fps (self w) == 0)%Q ->
  0 <= idx < length ->
  exists tlp' w',
    loop_head (element :: rest) idx length tm tlp tls w
    = (Ok (Some element, Suspended rest idx length tm tlp' tls), w').
Proof.
  intros Hfps Hidx. unfold loop_head.
  assert (Hlen : length <> 0) by lia.
  assert (Habs : Z.abs idx <= Z.abs length) by lia.
  unfold bind at 1. cbn [time_time].
  unfold bind at 1. cbn [get self].
  rewrite (float_truediv_ok _ _ Hfps).
  unfold bind at 1. cbn [lift].
  destruct (redraw_due _ tlp _).
  - match goal with
    | |- context [bind (bind (redraw idx length tm) ?k) ?k2 ?w1] =>
        destruct (succeeds_redraw (V := V) idx length tm Hlen Habs w1)
          as (a & w2 & E);
        unfold bind at 1; rewrite (bind_ok _ k _ _ _ E)
    end.
    cbn. eexists _, _. reflexivity.
  - cbn. eexists _, _. reflexivity.
Qed.

Lemma consume_suspended (body : A -> world V -> world V) fuel rest idx length
    tm tlp tls (w : world V) :
  consume (S fuel) (Suspended rest idx length tm tlp tls) body w
  = bind
      (loop_head rest (idx + 1) length
         (tm ++ [float_sub (Finite (clock w (ticks w))) tls]) tlp
         (Finite (clock w (S (ticks w)))))
      (loop_body body (fun g' => consume fuel g' body))
      (mkWorld (self w) (stdout w) (clock w) (S (S (ticks w)))).
Proof. reflexivity. Qed.

Lemma consume_from_loop_head (body : A -> world V -> world V) rest :
  (forall x w', progress_bar_fps (self (body x w')) = progress_bar_fps (self w')) ->
  forall fuel idx length tm tlp tls (w : world V),
    0 <= idx -> idx + Z.of_nat (List.length rest) <= length ->
    ~ (progress_bar_fps (self w) == 0)%Q ->
    (List.length rest <= fuel)%nat ->
    exists w',
      bind (loop_head rest idx length tm tlp tls)
        (loop_body body (fun g' => consume fuel g' body)) w
      = (Ok (rest, Finished), w').
Proof.
  intros Hbody. induction rest as [| x rest IH];
    intros fuel idx length tm tlp tls w Hidx Hlen Hfps Hfuel.
  - unfold loop_head.
    destruct (succeeds_print_row (V := V) w) as (a & w1 & E).
    unfold bind. rewrite E. cbn. eexists. reflexivity.
  - assert (Hlen' : 0 <= idx < length) by (simpl in Hlen; lia).
    destruct (loop_head_yields x rest idx length tm tlp tls w Hfps Hlen')
      as (tlp' & w1 & E).
    assert (Hfps1 : progress_bar_fps (self w1) = progress_bar_fps (self w)).
    { assert (Hk : keeps progress_bar_fps
                     (loop_head (x :: rest) idx length tm tlp tls)) by keeps_field.
      specialize (Hk w). now rewrite E in Hk. }
    rewrite (bind_ok _ _ _ _ _ E). clear E.
    destruct fuel as [| fuel]; [simpl in Hfuel; lia |].
    cbn [loop_body]. unfold bind at 1. cbv beta iota.
    unfold bind at 1. rewrite consume_suspended.
    match goal with
    | |- context [bind (loop_head rest ?i ?l ?m ?p ?s) _ ?w3] =>
        destruct (IH fuel i l m p s w3) as [w' E]
    end.
    + lia.
    + simpl in Hlen. lia.
    + cbn [self]. rewrite Hbody, Hfps1. exact Hfps.
    + simpl in Hfuel. lia.
    + rewrite E. cbn. eexists. reflexivity.
Qed.

(** C2. Iterating [table(xs)] to exhaustion hands the caller exactly the
    elements of [xs], each once, unchanged and in order, and then ends;
    this needs only that the table's [progress_bar_fps] is not zero and
    that the caller's loop body leaves that setting alone. *)
Theorem call_yields_every_element (xs : list A) (body : A -> world V -> world V)
    (w : world V) (fuel : nat) :
  ~ (progress_bar_fps (self w) == 0)%Q ->
  (forall x w', progress_bar_fps (self (body x w')) = progress_bar_fps (self w')) ->
  (List.length xs < fuel)%nat ->
  exists w', consume fuel (Created (Sized xs)) body w = (Ok (xs, Finished), w').
Proof.
  intros Hfps Hbody Hfuel.
  destruct fuel as [| fuel]; [lia |].
  cbn [consume next]. rewrite bind_assoc. unfold bind at 1. cbn [get].
  rewrite bind_assoc.
  assert (Hk : keeps progress_bar_fps
                 (if header_printed (self w) then @ret (world V) unit tt
                  else print_header)) by keeps_field.
  specialize (Hk w).
  destruct (succeeds_header_part w w) as (a & w1 & E). rewrite E in Hk.
  rewrite (bind_ok _ _ _ _ _ E). rewrite bind_assoc.
  unfold bind at 1. cbn [time_time].
  apply consume_from_loop_head.
  - exact Hbody.
  - lia.
  - lia.
  - cbn [self]. simpl in Hk. rewrite Hk. exact Hfps.
  - lia.
Qed.

End IterationClaims.

(** ** The progress bar *)

Lemma Qdiv_inject_le (i j n : Z) :
  0 < n -> i <= j -> (inject_Z i / inject_Z n <= inject_Z j / inject_Z n)%Q.
Proof.
  intros Hn Hij. unfold Qdiv. apply Qmult_le_compat_r.
  - now rewrite <- Zle_Qle.
  - apply Qinv_le_0_compat. change 0%Q with (inject_Z 0). rewrite <- Zle_Qle. lia.
Qed.

Lemma Qdiv_inject_nonneg (i n : Z) :
  0 < n -> 0 <= i -> (0 <= inject_Z i / inject_Z n)%Q.
Proof.
  intros Hn Hi.
  assert (H := Qdiv_inject_le 0 i n Hn Hi).
  assert (E : (inject_Z 0 / inject_Z n == 0)%Q) by (unfold Qdiv; apply Qmult_0_l).
  now rewrite E in H.
Qed.

Lemma Qdiv_inject_same (n : Z) : n <> 0 -> (inject_Z n / inject_Z n == 1)%Q.
Proof.
  intros Hn. unfold Qdiv. apply Qmult_inv_r. now apply inject_Z_nonzero.
Qed.

Lemma round53_0 : (round53 0 == 0)%Q.
Proof. apply (round53_Z 0). reflexivity. Qed.

Lemma round53_nonneg q : (0 <= q)%Q -> (0 <= round53 q)%Q.
Proof. intros H. rewrite <- round53_0. now apply round53_le. Qed.

Lemma round53_nonpos q : (q <= 0)%Q -> (round53 q <= 0)%Q.
Proof. intros H. rewrite <- round53_0. now apply round53_le. Qed.

(** The fill count never goes down as [i] goes up from zero: the quotient,
    the product and the ceiling are monotone, and so is each rounding. *)
Lemma fill_monotone (i j n w : Z) :
  0 < n -> 0 <= i <= j ->
  Z.max (Qceiling (round53 (round53 (inject_Z i / inject_Z n)
                            * round53 (inject_Z w)))) 1
  <= Z.max (Qceiling (round53 (round53 (inject_Z j / inject_Z n)
                               * round53 (inject_Z w)))) 1.
Proof.
  intros Hn [Hi Hij].
  destruct (Qlt_le_dec (round53 (inject_Z w)) 0) as [Hw | Hw].
  - assert (Hneg : forall k, 0 <= k ->
              Qceiling (round53 (round53 (inject_Z k / inject_Z n)
                                 * round53 (inject_Z w))) <= 0).
    { intros k Hk. change 0 with (Qceiling 0). apply Qceiling_resp_le.
      apply round53_nonpos. rewrite Qmult_comm.
      assert (H := Qmult_le_compat_r (round53 (inject_Z w)) 0
                     (round53 (inject_Z k / inject_Z n))).
      rewrite Qmult_0_l in H. apply H.
      - now apply Qlt_le_weak.
      - apply round53_nonneg. now apply Qdiv_inject_nonneg. }
    pose proof (Hneg i Hi). pose proof (Hneg j ltac:(lia)). lia.
  - apply Z.max_le_compat_r. apply Qceiling_resp_le. apply round53_le.
    apply Qmult_le_compat_r; [| exact Hw].
    apply round53_le. now apply Qdiv_inject_le.
Qed.

(** At [i = n] the quotient is the float [1.0] and the product is the width
    itself, as long as the width is an int that a float holds exactly. *)
Lemma fill_at_total (n w : Z) :
  n <> 0 -> Z.abs w < 2 ^ 53 ->
  Qceiling (round53 (round53 (inject_Z n / inject_Z n) * round53 (inject_Z w))) = w.
Proof.
  intros Hn Hw. rewrite <- (Qceiling_Z w) at 2. apply Qceiling_comp.
  assert (E1 : (round53 1 == 1)%Q) by (apply (round53_Z 1); reflexivity).
  transitivity (round53 (inject_Z w)); [apply round53_comp | now apply round53_Z].
  rewrite (round53_comp _ 1 (Qdiv_inject_same n Hn)), E1, Qmult_1_l.
  now apply round53_Z.
Qed.

(** C4, as the code has it.  For a total [n > 0], a count [i] from [0] to
    [n] and an available width [w] below [2^53] in magnitude, the fill count
    is [max(ceil(i / n * w), 1)] with the quotient and the product each
    rounded to the nearest float: it is at least one, it never decreases as
    [i] grows toward [n], and at [i = n] it is the whole available width [w]
    when [w >= 1] but one glyph when [w < 1]. *)
Theorem num_hashes_floor_and_growth (i j n w : Z) :
  0 < n -> 0 <= i <= j -> j <= n -> Z.abs w < 2 ^ 53 ->
  exists hi hj,
    num_hashes i n w = Ok hi /\ num_hashes j n w = Ok hj
    /\ hi = Z.max (Qceiling (round53 (round53 (inject_Z i / inject_Z n)
                                      * round53 (inject_Z w)))) 1
    /\ 1 <= hi /\ hi <= hj
    /\ (1 <= w -> num_hashes n n w = Ok w)
    /\ (w < 1 -> num_hashes n n w = Ok 1).
Proof.
  intros Hn Hij Hjn Hw.
  assert (Hn0 : n <> 0) by lia.
  eexists _, _.
  split; [apply (num_hashes_ok i n w Hn0); lia |].
  split; [apply (num_hashes_ok j n w Hn0); lia |].
  split; [reflexivity |].
  split; [apply Z.le_max_r |].
  split; [now apply fill_monotone |].
  rewrite (num_hashes_ok n n w Hn0 ltac:(lia)), (fill_at_total n w Hn0 Hw).
  split; intros Hw'; f_equal; lia.
Qed.

(** C4 as stated fails: with available width [-4] (one column of the default
    width 8 and the label of the iteration wrapper) the bar at [i = n] has
    one fill glyph, not the available width. *)
Lemma num_hashes_not_full_width :
  num_hashes 5 5 (-4) = Ok 1 /\ num_hashes 5 5 (-4) <> Ok (-4).
Proof. split; [vm_compute; reflexivity | vm_compute; discriminate]. Qed.

Lemma num_hashes_floor_and_growth_witness :
  exists hi hj,
    num_hashes 1 3 13 = Ok hi /\ num_hashes 2 3 13 = Ok hj
    /\ hi = Z.max (Qceiling (round53 (round53 (inject_Z 1 / inject_Z 3)
                                      * round53 (inject_Z 13)))) 1
    /\ 1 <= hi /\ hi <= hj
    /\ (1 <= 13 -> num_hashes 3 3 13 = Ok 13)
    /\ (13 < 1 -> num_hashes 3 3 13 = Ok 1).
Proof. apply (num_hashes_floor_and_growth 1 2 3 13); lia. Defined.

(** The roundings show: [7 / 25] is the float just above 0.28, its product
    with 25 the float just above 7, and the ceiling of that is 8, one more
    than the ceiling of the exact [7 / 25 * 25]. *)
Example fill_count_rounds_as_floats :
  num_hashes 7 25 25 = Ok 8
  /\ Qceiling (inject_Z 7 / inject_Z 25 * inject_Z 25) = 7.
Proof. split; vm_compute; reflexivity. Qed.

(** ** The column registry *)

Section Registry.
Context {V : Type} `{!PyValue V}.

Lemma add_column_columns (w : world V) name width color :
  columns (self (snd (add_column name width color w)))
  = if header_printed (self w) then columns (self w)
    else columns (self w) ++ [name].
Proof.
  unfold add_column, bind, get, assert. simpl.
  destruct (header_printed (self w)); simpl; [reflexivity |].
  destruct color; reflexivity.
Qed.

(** Only [add_column] touches the display order. *)
Lemma perform_columns (c : call V) (w : world V) :
  match c with CallAddColumn _ _ _ => False | _ => True end ->
  columns (self (snd (perform c w))) = columns (self w).
Proof.
  intros Hc.
  assert (Hk : keeps columns (perform c)).
  { destruct c; try contradiction; unfold perform; keeps_field. }
  apply Hk.
Qed.

(** The width that [add_column] stores covers the name: the path that
    declares one column at a time keeps the width invariant. *)
Lemma add_column_width_covers_name (w : world V) name width color :
  header_printed (self w) = false ->
  len name <= width_of (self (snd (add_column name width color w))) name.
Proof.
  intros Hp. unfold add_column, bind, get, assert. simpl. rewrite Hp. simpl.
  unfold width_of, peek.
  destruct color; simpl; rewrite lookup_insert_eq; simpl;
    destruct width as [x |]; simpl;
    match goal with |- context [if ?b then _ else _] => destruct b eqn:E end;
    lia.
Qed.

(** C8, as the code has it.  From a constructor call whose [columns] are
    pairwise distinct, through any history of calls in which every
    [add_column] names a column not declared so far, the display-order
    list holds no name twice. *)
Theorem declared_names_distinct (cols : list string) (default_column_width : Z)
    (fps : Q) (formatting : option (gmap string (V -> V)))
    (out : list string) (clk : nat -> Q) (tk : nat) (cs : list (call V)) :
  NoDup cols ->
  fresh_names cs (mkWorld (init cols default_column_width fps formatting) out clk tk) ->
  NoDup (columns (self (perform_all cs
           (mkWorld (init cols default_column_width fps formatting) out clk tk)))).
Proof.
intros Hnd.
set (w0 := mkWorld (init cols default_column_width fps formatting) out clk tk).
assert (Hnd0 : NoDup (columns (self w0))) by exact Hnd.
clearbody w0. clear Hnd. revert w0 Hnd0.
induction cs as [| c cs IH]; intros w Hnd Hfresh; simpl; [exact Hnd |].
destruct Hfresh as [Hc Hrest].
apply IH; [| exact Hrest].
destruct c; try (rewrite perform_columns; [exact Hnd | exact I]).
simpl perform. rewrite add_column_columns.
destruct (header_printed (self w)); [exact Hnd |].
apply NoDup_app. split; [exact Hnd |]. split.
- intros x Hx Hin. apply list_elem_of_singleton in Hin. subst x. contradiction.
- apply NoDup_singleton.
Qed.
End Registry.

(** C8 as stated fails: declaring the same name twice stores it twice. *)
Lemma duplicate_names_are_kept :
  columns (self (perform_all
             [CallAddColumn "loss" None None; CallAddColumn "loss" None None]
             empty_world))
  = ["loss"; "loss"]
  /\ ~ NoDup (columns (self (perform_all
                [CallAddColumn "loss" None None; CallAddColumn "loss" None None]
                empty_world))).
Proof.
  split; [reflexivity |].
  change (~ NoDup ["loss"; "loss"]).
  intros H. apply NoDup_cons in H. destruct H as [H _]. apply H. left.
Qed.

Lemma declared_names_distinct_witness :
  NoDup (columns (self (perform_all
           [CallAddColumn "accuracy" (Some 4) None; CallSetItem "epoch" "1";
            CallNextRow true; CallClose]
           training_world))).
Proof.
  apply (declared_names_distinct ["epoch"; "loss"] 8 10%Q None [] sample_clock 0).
  - refine (bool_decide_unpack _ _); vm_compute; exact I.
  - simpl. repeat split. refine (bool_decide_unpack _ _); vm_compute; exact I.
Defined.

(** C1 fails on the constructor path: a column passed to the constructor
    gets the default width whatever the length of its name (here 8 against a
    name of 14 characters), stays so once the header is drawn, and the
    header shows the name cut to the width. *)
Theorem constructor_column_narrower_than_name :
  "train accuracy" ∈ columns long_name_table
  /\ width_of long_name_table "train accuracy" = 8
  /\ len "train accuracy" = 14
  /\ width_of (self (snd (print_header long_name_world))) "train accuracy" = 8
  /\ stdout (snd (print_header long_name_world)) !! 2%nat
     = Some ("│ train ac │" ++ LF)%string.
Proof.
  split; [refine (bool_decide_unpack _ _); vm_compute; exact I |].
  repeat split; vm_compute; reflexivity.
Qed.

(** ** The properties on the sample tables *)

Lemma pending_world_buffer : values (self pending_world) <> ∅.
Proof. refine (bool_decide_unpack _ _); vm_compute; exact I. Defined.

Lemma next_row_saves_iff_nonempty_witness :
  finished_rows (self (snd (next_row true pending_world)))
  = finished_rows (self pending_world) ++ [values (self pending_world)]
  /\ num_rows (self (snd (next_row true pending_world)))
     = num_rows (self pending_world) + 1.
Proof.
  destruct (next_row_saves_iff_nonempty pending_world) as (_ & _ & H & _).
  apply H. exact pending_world_buffer.
Defined.

Lemma call_yields_every_element_witness :
  exists w',
    consume 4 (Created (Sized ["a"; "b"; "c"])) write_epoch training_world
    = (Ok (["a"; "b"; "c"], Finished), w').
Proof.
  apply call_yields_every_element.
  - intros H. vm_compute in H. discriminate H.
  - intros x w'. unfold write_epoch.
    apply (keeps_setitem progress_bar_fps); intros; reflexivity.
  - simpl. lia.
Defined.

Lemma setitem_unknown_column_fails_witness :
  exists msg,
    setitem "unknown" "1" training_world = (Raise (AssertionError msg), training_world).
Proof.
  apply setitem_unknown_column_fails.
  refine (bool_decide_unpack _ _); vm_compute; exact I.
Defined.

Lemma to_list_row_and_column_order_witness :
  fst (to_list pending_world)
  = Ok (map (cells_of (columns (self pending_world)))
          (finished_rows (self pending_world)))
  /\ fst (to_list (snd (next_row true pending_world)))
     = Ok (map (cells_of (columns (self pending_world)))
             (finished_rows (self pending_world))
           ++ [cells_of (columns (self pending_world)) (values (self pending_world))]).
Proof. exact (to_list_row_and_column_order pending_world pending_world_buffer). Defined.

Lemma add_column_after_header_fails_witness :
  add_column "accuracy" None None pending_world
  = (Raise (AssertionError "Header is already frozen!"), pending_world).
Proof.
  apply add_column_after_header_fails.
  right. exists training_world, "epoch", "1". vm_compute. reflexivity.
Defined.

Lemma close_saves_pending_row_witness :
  exists w',
    close pending_world = (Ok tt, w')
    /\ finished_rows (self w')
       = finished_rows (self pending_world)
         ++ [vivify empty_str (columns (self pending_world))
               (values (self pending_world))]
    /\ (forall col,
          peek (vivify empty_str (columns (self pending_world))
                  (values (self pending_world))) col empty_str
          = peek (values (self pending_world)) col empty_str)
    /\ num_rows (self w') = num_rows (self pending_world) + 1
    /\ values (self w') = ∅
    /\ header_printed (self w') = false.
Proof. exact (close_saves_pending_row pending_world pending_world_buffer). Defined.

(** C2 as stated fails: with [progress_bar_fps = 0] the schedule test
    divides by zero before the first element is handed over, so an iterable
    of length one yields nothing. *)
Example zero_fps_raises :
  fst (consume 2 (Created (Sized ["a"])) write_epoch zero_fps_world)
  = Raise ZeroDivisionError.
Proof. reflexivity. Qed.

(** An object without [__len__] is refused before any element. *)
Example unsized_iterable_refused :
  fst (consume 2 (Created (Unsized ["a"])) write_epoch training_world)
  = Raise (AssertionError "").
Proof. reflexivity. Qed.

(** One column of the default width leaves the bar of the iteration wrapper
    an available width of [8 + 2 - 13 - 1 = -4]: one fill glyph is drawn. *)
Example one_column_bar :
  last (stdout (snd ((print_header ;;
                      print_progress_bar 5 5 (rate_label (Finite 0)) " ")
                       one_column_world)))
  = Some "│ [0.00 it/s] ■ │".
Proof. vm_compute. reflexivity. Qed.

(** What the sample history reads as once exported. *)
Example training_rows :
  fst (to_list (perform_all
         [CallSetItem "epoch" "1"; CallSetItem "loss" "0.532"; CallNextRow true;
          CallSetItem "epoch" "2"; CallClose]
         training_world))
  = Ok [["1"; "0.532"]; ["2"; ""]].
Proof. reflexivity. Qed.

(** ** Cell layout *)

Lemma length_string_app (s1 s2 : string) :
  String.length (s1 ++ s2)%string = (String.length s1 + String.length s2)%nat.
Proof. induction s1 as [| c s1 IH]; simpl; [reflexivity | now rewrite IH]. Qed.

Lemma string_app_nil_r (s : string) : (s ++ "")%string = s.
Proof.
induction s as [| c s IH]; [reflexivity |].
change (String c s ++ "")%string with (String c (s ++ ""))%string.
f_equal. exact IH.
Qed.

Lemma string_app_assoc (s1 s2 s3 : string) :
  (s1 ++ (s2 ++ s3))%string = ((s1 ++ s2) ++ s3)%string.
Proof.
induction s1 as [| c s1 IH]; [reflexivity |].
change (String c (s1 ++ (s2 ++ s3)) = String c ((s1 ++ s2) ++ s3))%string.
f_equal. exact IH.
Qed.

Lemma length_concat_cons (x : string) (l : list string) :
  String.length (String.concat "" (x :: l))
  = (String.length x + String.length (String.concat "" l))%nat.
Proof.
destruct l as [| y l].
- simpl. lia.
- change (String.concat "" (x :: y :: l))
    with (x ++ "" ++ String.concat "" (y :: l))%string.
  now rewrite !length_string_app.
Qed.

Lemma length_blanks (k : Z) : String.length (str_mul " " k) = Z.to_nat k.
Proof.
unfold str_mul. induction (Z.to_nat k) as [| n IH]; [reflexivity |].
change (replicate (S n) " ") with (" " :: replicate n " ").
rewrite length_concat_cons, IH. reflexivity.
Qed.

Lemma length_substring_0 (n : nat) (s : string) :
  String.length (String.substring 0 n s) = Nat.min n (String.length s).
Proof.
revert n. induction s as [| c s IH]; intros [| n]; simpl; try reflexivity.
now rewrite IH.
Qed.

Lemma len_slice_to (s : string) (stop : Z) :
  len (slice_to s stop)
  = if stop <? 0 then Z.max (len s + stop) 0 else Z.min stop (len s).
Proof.
unfold slice_to, len. rewrite length_substring_0.
destruct (stop <? 0) eqn:E.
- apply Z.ltb_lt in E. lia.
- apply Z.ltb_ge in E. lia.
Qed.

Lemma center_padding (s : string) (width : Z) :
  len s < width ->
  exists left right,
    center s width = (str_mul " " left ++ s ++ str_mul " " right)%string
    /\ 0 <= left /\ 0 <= right
    /\ left + right = width - len s
    /\ (left = right \/ left = right + 1 \/ right = left + 1).
Proof.
intros Hlt. unfold center.
destruct (width <=? len s) eqn:E; [apply Z.leb_le in E; lia |].
set (marg := width - len s).
assert (Hbit : Z.land (Z.land marg width) 1 = 0 \/ Z.land (Z.land marg width) 1 = 1).
{ rewrite Z.land_ones with (n := 1) by lia. change (2 ^ 1) with 2.
  pose proof (Z.mod_pos_bound (Z.land marg width) 2 ltac:(lia)). lia. }
exists (marg / 2 + Z.land (Z.land marg width) 1),
       (marg - (marg / 2 + Z.land (Z.land marg width) 1)).
split; [reflexivity |].
assert (Hm : 0 < marg) by (unfold marg; lia).
pose proof (Z.div_mod marg 2 ltac:(lia)) as Hd.
pose proof (Z.mod_pos_bound marg 2 ltac:(lia)) as Hb.
assert (Hodd : Z.land (Z.land marg width) 1 = 1 -> marg mod 2 = 1).
{ intros H1. rewrite <- Z.land_assoc, (Z.land_comm width 1), Z.land_assoc in H1.
  assert (Hm1 : Z.land marg 1 = marg mod 2)
    by (rewrite Z.land_ones with (n := 1) by lia; reflexivity).
  destruct (Z.eq_dec (marg mod 2) 1) as [? | Hne]; [assumption |].
  assert (Hz : marg mod 2 = 0) by lia.
  rewrite Hm1, Hz in H1. rewrite Z.land_0_l in H1. discriminate. }
lia.
Qed.

Lemma substring_0_all (n : nat) (s : string) :
  (String.length s <= n)%nat -> String.substring 0 n s = s.
Proof.
revert n. induction s as [| c s IH]; intros [| n] Hn; simpl in *; try reflexivity.
- lia.
- rewrite IH by lia. reflexivity.
Qed.

Lemma len_center (s : string) (width : Z) :
  len (center s width) = Z.max (len s) width.
Proof.
destruct (Z_lt_le_dec (len s) width) as [Hlt | Hge].
- destruct (center_padding s width Hlt) as (l & r & -> & Hl & Hr & Hsum & _).
  unfold len in *. rewrite !length_string_app, !length_blanks. lia.
- unfold center. apply Z.leb_le in Hge. rewrite Hge. apply Z.leb_le in Hge. lia.
Qed.

(** X1. [s.center(width)] with [width] above the length of [s] is [s]
    between blanks: the blanks add up to the missing width and the two sides
    differ by at most one. *)
Theorem center_pads_both_sides (s : string) (width : Z) :
  len s < width ->
  exists left right,
    center s width = (str_mul " " left ++ s ++ str_mul " " right)%string
    /\ len (center s width) = width
    /\ 0 <= left /\ 0 <= right
    /\ left + right = width - len s
    /\ (left = right \/ left = right + 1 \/ right = left + 1).
Proof.
intros Hlt.
destruct (center_padding s width Hlt) as (l & r & E & Hl & Hr & Hsum & Hbal).
exists l, r. split; [exact E |].
split; [rewrite len_center; lia |].
repeat split; assumption.
Qed.

Lemma center_pads_both_sides_witness :
  exists left right,
    center "ab" 5 = (str_mul " " left ++ "ab" ++ str_mul " " right)%string
    /\ len (center "ab" 5) = 5
    /\ 0 <= left /\ 0 <= right
    /\ left + right = 5 - len "ab"
    /\ (left = right \/ left = right + 1 \/ right = left + 1).
Proof. apply center_pads_both_sides. vm_compute. reflexivity. Defined.

(** X2. A cell as the header and the rows render it, [text[:width].center(width)]
    with [width >= 0], is exactly [width] characters wide: a text that fits
    is kept whole, a longer one is cut to its first [width] characters. *)
Theorem cell_fills_column_width (text : string) (width : Z) :
  0 <= width ->
  len (center (slice_to text width) width) = width
  /\ (len text <= width -> slice_to text width = text)
  /\ (width <= len text ->
      center (slice_to text width) width
      = String.substring 0 (Z.to_nat width) text).
Proof.
intros Hw.
assert (Hs : len (slice_to text width) = Z.min width (len text)).
{ rewrite len_slice_to. destruct (width <? 0) eqn:E; [| reflexivity].
  apply Z.ltb_lt in E. lia. }
assert (Hcut : slice_to text width
               = String.substring 0 (Z.to_nat (Z.min width (len text))) text).
{ unfold slice_to. destruct (width <? 0) eqn:E; [| reflexivity].
  apply Z.ltb_lt in E. lia. }
split; [| split].
- rewrite len_center, Hs. unfold len. lia.
- intros Hfit. rewrite Hcut. apply substring_0_all. unfold len in *. lia.
- intros Hlong. unfold center. rewrite Hs.
  assert (E : (width <=? Z.min width (len text)) = true) by (apply Z.leb_le; lia).
  rewrite E, Hcut. f_equal. lia.
Qed.

Lemma cell_fills_column_width_witness :
  len (center (slice_to "train accuracy" 8) 8) = 8
  /\ (len "train accuracy" <= 8 -> slice_to "train accuracy" 8 = "train accuracy")
  /\ (8 <= len "train accuracy" ->
      center (slice_to "train accuracy" 8) 8
      = String.substring 0 (Z.to_nat 8) "train accuracy").
Proof. apply cell_fills_column_width. lia. Defined.

(** ** More on the progress bar *)

Lemma fill_at_most_width (i n w : Z) :
  0 < n -> 0 <= i <= n -> 1 <= w < 2 ^ 53 ->
  Z.max (Qceiling (round53 (round53 (inject_Z i / inject_Z n)
                            * round53 (inject_Z w)))) 1 <= w.
Proof.
intros Hn Hi Hw.
pose proof (fill_monotone i n n w Hn Hi) as H.
assert (Hn0 : n <> 0) by lia.
assert (Hw0 : Z.abs w < 2 ^ 53) by lia.
rewrite (fill_at_total n w Hn0 Hw0) in H. lia.
Qed.

(** X3. With [n > 0], [0 <= i <= n] and an available width from 1 up to
    [2^53], the bar never overflows, although the quotient and the product
    are rounded: the fill count lies between 1 and the width, so fill and
    empty glyphs together are exactly as many as the width. *)
Theorem bar_fits_available_width (i n tot_width : Z) :
  0 < n -> 0 <= i <= n -> 1 <= tot_width < 2 ^ 53 ->
  exists h,
    num_hashes i n tot_width = Ok h
    /\ 1 <= h <= tot_width
    /\ (Z.to_nat h + Z.to_nat (tot_width - h))%nat = Z.to_nat tot_width.
Proof.
intros Hn Hi Hw.
eexists. split; [apply num_hashes_ok; lia |].
pose proof (fill_at_most_width i n tot_width Hn Hi Hw) as Hle.
match type of Hle with Z.max ?c 1 <= _ => pose proof (Z.le_max_r c 1) end.
split; [split; assumption | lia].
Qed.

Lemma bar_fits_available_width_witness :
  exists h,
    num_hashes 7 25 25 = Ok h
    /\ 1 <= h <= 25
    /\ (Z.to_nat h + Z.to_nat (25 - h))%nat = Z.to_nat 25.
Proof. apply bar_fits_available_width; lia. Defined.

Section BarAndColumns.
Context {V : Type} `{!PyValue V}.

Lemma print_progress_bar_run (i n : Z) (show_before show_after : string)
    (w : world V) :
  n <> 0 -> Z.abs i <= Z.abs n ->
  exists glyphs,
    print_progress_bar i n show_before show_after w
    = (Ok tt,
       mkWorld (self w)
         (stdout w ++ [(Boxes.vertical ++ show_before ++ glyphs
                        ++ show_after ++ Boxes.vertical)%string])
         (clock w) (ticks w)).
Proof.
intros Hn Hi. unfold print_progress_bar. unfold bind at 1. cbn [get].
rewrite (num_hashes_ok _ _ _ Hn Hi). unfold bind at 1. cbn [lift].
eexists (str_mul Boxes.full _ ++ str_mul Boxes.empty _)%string.
unfold print. cbn [String.concat self stdout clock ticks].
rewrite string_app_nil_r. cbn [String.append].
rewrite <- !string_app_assoc. reflexivity.
Qed.

End BarAndColumns.

(** ** Declaring columns and writing cells *)

Section DeclareAndWrite.
Context {V : Type} `{!PyValue V}.

Lemma clamp_max (x n : Z) : (if x <? n then n else x) = Z.max x n.
Proof.
destruct (x <? n) eqn:E; [apply Z.ltb_lt in E | apply Z.ltb_ge in E]; lia.
Qed.

(** X5. On a table whose header is not printed, [add_column] returns, puts
    the name last in the display order and gives it the width
    [max(width or default, len(name))]; the colour is stored when one is
    given; the widths of other names, the buffer, the history, the counter
    and the output are left alone. *)
Theorem add_column_declares (w : world V) (name : string) (width : option Z)
    (color : option string) :
  header_printed (self w) = false ->
  exists w',
    add_column name width color w = (Ok tt, w')
    /\ columns (self w') = columns (self w) ++ [name]
    /\ width_of (self w') name
       = Z.max (default (default_width (self w)) width) (len name)
    /\ (forall col, col <> name -> width_of (self w') col = width_of (self w) col)
    /\ peek (colors (self w')) name None
       = match color with
         | Some c => Some c
         | None => peek (colors (self w)) name None
         end
    /\ values (self w') = values (self w)
    /\ finished_rows (self w') = finished_rows (self w)
    /\ num_rows (self w') = num_rows (self w)
    /\ stdout w' = stdout w.
Proof.
intros Hp. unfold add_column, bind, get, assert. simpl. rewrite Hp. simpl.
destruct color as [c |]; simpl; eexists; (split; [reflexivity |]); simpl;
  unfold width_of, peek; simpl.
all: split; [reflexivity |].
all: split;
  [ rewrite lookup_insert_eq; simpl; rewrite clamp_max;
    destruct width; reflexivity |].
all: split; [intros col Hne; now rewrite lookup_insert_ne by congruence |].
all: split; [try rewrite lookup_insert_eq; reflexivity |].
all: repeat split; reflexivity.
Qed.

Lemma print_row_owes_line (w : world V) :
  values (self w) <> ∅ ->
  needs_line_ending (self (snd (print_row w))) = true.
Proof.
intros Hne. unfold print_row. run_prim.
assert (Hv : keeps values (if header_printed (self w) then @ret (world V) unit tt
                           else print_header)) by keeps_field.
specialize (Hv w).
run (succeeds_header_part w). run_prim.
rewrite Hv.
destruct (size (values (self w)) =? 0)%nat eqn:E.
{ apply size_zero_iff in E. contradiction. }
run_prim.
match goal with
| |- needs_line_ending (self (snd (?c ?w1))) = true =>
    assert (Hk : keeps needs_line_ending c) by keeps_field
end.
now rewrite Hk.
Qed.

Lemma print_row_empty (w : world V) :
  values (self w) = ∅ ->
  values (self (snd (print_row w))) = ∅
  /\ needs_line_ending (self (snd (print_row w))) = needs_line_ending (self w).
Proof.
intros He.
assert (Hv : keeps values (if header_printed (self w) then @ret (world V) unit tt
                           else print_header)) by keeps_field.
assert (Hn : keeps needs_line_ending
               (if header_printed (self w) then @ret (world V) unit tt
                else print_header)) by keeps_field.
specialize (Hv w). specialize (Hn w).
split; unfold print_row; run_prim; run (succeeds_header_part w).
all: set (w1 := snd ((if header_printed (self w) then @ret (world V) unit tt
                      else print_header) w)) in *.
all: clearbody w1; run_prim.
all: rewrite Hv, He, map_size_empty; simpl.
- now rewrite Hv.
- exact Hn.
Qed.

(** A cell write is the assertion, the assignment and one row redraw. *)
Lemma setitem_run (w : world V) (key : string) (value : V) :
  setitem key value w
  = if bool_decide (key ∈ columns (self w))
    then print_row
           (set_self (set_values (<[key := value]> (values (self w))) (self w)) w)
    else (Raise (AssertionError
                   ("Column " ++ key ++ " not in " ++ repr_names (columns (self w)))%string),
          w).
Proof.
unfold setitem, bind, get, assert. simpl.
destruct (bool_decide (key ∈ columns (self w))); simpl; [| reflexivity].
destruct (print_row _) as [[[] | e] w2]; reflexivity.
Qed.

Lemma setitem_prints_header (w : world V) (key : string) (value : V) :
  fst (setitem key value w) = Ok tt ->
  header_printed (self (snd (setitem key value w))) = true.
Proof.
rewrite setitem_run.
destruct (bool_decide (key ∈ columns (self w))); [| discriminate].
intros _. apply print_row_sets_flag.
Qed.

(** What a cell write to a declared column does to the buffer. *)
Lemma setitem_buffer (w : world V) (key : string) (value : V) :
  key ∈ columns (self w) ->
  exists w',
    setitem key value w = (Ok tt, w')
    /\ columns (self w') = columns (self w)
    /\ peek (values (self w')) key empty_str = value
    /\ (forall col, col <> key ->
        peek (values (self w')) col empty_str = peek (values (self w)) col empty_str).
Proof.
intros Hkey.
set (w1 := set_self (set_values (<[key := value]> (values (self w))) (self w)) w).
assert (E : setitem key value w = print_row w1)
  by (rewrite setitem_run, bool_decide_eq_true_2 by exact Hkey; reflexivity).
destruct (succeeds_snd print_row w1 succeeds_print_row) as [[] E1].
exists (snd (print_row w1)). rewrite E. split; [exact E1 |].
assert (Hne : values (self w1) <> ∅) by (simpl; apply insert_non_empty).
assert (Hc : keeps columns (print_row (V := V))) by keeps_field.
rewrite (Hc w1), (print_row_values w1 Hne). simpl.
split; [reflexivity |]. split.
- rewrite peek_vivify. unfold peek. now rewrite lookup_insert_eq.
- intros col Hne'. rewrite peek_vivify. unfold peek.
  now rewrite lookup_insert_ne by congruence.
Qed.

(** X6. A cell write to a declared column returns; afterwards the buffer
    reads the written value in that column and reads as before in every
    other column; the header is printed, a line ending is owed, and the
    declared columns, the history and the row counter are unchanged. *)
Theorem setitem_stores_value (w : world V) (key : string) (value : V) :
  key ∈ columns (self w) ->
  exists w',
    setitem key value w = (Ok tt, w')
    /\ peek (values (self w')) key empty_str = value
    /\ (forall col, col <> key ->
        peek (values (self w')) col empty_str = peek (values (self w)) col empty_str)
    /\ header_printed (self w') = true
    /\ needs_line_ending (self w') = true
    /\ columns (self w') = columns (self w)
    /\ finished_rows (self w') = finished_rows (self w)
    /\ num_rows (self w') = num_rows (self w).
Proof.
intros Hkey.
destruct (setitem_buffer w key value Hkey) as (w' & E & Hc & Hk & Ho).
exists w'. split; [exact E |]. split; [exact Hk |]. split; [exact Ho |].
assert (Hw' : w' = snd (setitem key value w)) by now rewrite E.
assert (Hf : keeps finished_rows (setitem (V := V) key value)) by keeps_field.
assert (Hn : keeps num_rows (setitem (V := V) key value)) by keeps_field.
specialize (Hf w). specialize (Hn w). rewrite <- Hw' in Hf, Hn.
split; [| split; [| repeat split; assumption]].
- rewrite Hw'. apply setitem_prints_header. now rewrite E.
- set (w1 := set_self (set_values (<[key := value]> (values (self w))) (self w)) w).
  assert (E1 : setitem key value w = print_row w1)
    by (rewrite setitem_run, bool_decide_eq_true_2 by exact Hkey; reflexivity).
  rewrite Hw', E1. apply print_row_owes_line. simpl. apply insert_non_empty.
Qed.
End DeclareAndWrite.

(** ** Filling, finishing and closing rows *)

Section RowsAndExport.
Context {V : Type} `{!PyValue V}.

(** X7. Last write wins.  After any sequence of cell writes to declared
    columns, every column of the buffer reads the value written to it last,
    and a column that was not written reads as before. *)
Theorem writes_last_value_wins (writes : list (string * V)) (w : world V) :
  Forall (fun kv => fst kv ∈ columns (self w)) writes ->
  exists w',
    write_all writes w = (Ok tt, w')
    /\ forall col,
         peek (values (self w')) col empty_str
         = default (peek (values (self w)) col empty_str) (last_write writes col).
Proof.
revert w. induction writes as [| [key value] writes IH]; intros w Hall.
- exists w. split; [reflexivity |]. intros col. reflexivity.
- apply Forall_cons in Hall. destruct Hall as [Hkey Hrest]. simpl in Hkey.
  destruct (setitem_buffer w key value Hkey) as (w1 & E1 & Hc & Hk & Ho).
  destruct (IH w1) as (w' & E' & Hread).
  { rewrite Hc. exact Hrest. }
  exists w'. split.
  + unfold write_all in *. simpl for_each. cbn [fst snd].
    rewrite (bind_ok _ _ _ _ _ E1). exact E'.
  + intros col. rewrite Hread. simpl last_write.
    destruct (last_write writes col) as [v |]; [reflexivity |]. simpl.
    destruct (String.eqb key col) eqn:Eq.
    * apply String.eqb_eq in Eq. subst col. exact Hk.
    * apply String.eqb_neq in Eq. simpl. apply Ho. congruence.
Qed.

(** X8. [next_row] ends the current line exactly when a redraw left one
    open, and clears that flag; called with [save=False] it drops the buffer
    without touching the history or the row counter. *)
Theorem next_row_ends_open_line (save : bool) (w : world V) :
  stdout (snd (next_row save w))
  = stdout w ++ (if needs_line_ending (self w) then [LF] else [])
  /\ needs_line_ending (self (snd (next_row save w))) = false
  /\ values (self (snd (next_row false w))) = ∅
  /\ finished_rows (self (snd (next_row false w))) = finished_rows (self w)
  /\ num_rows (self (snd (next_row false w))) = num_rows (self w).
Proof.
destruct w as [[dw cols nr ws cs vs fps hp cf nle fr] out clk tk].
unfold next_row, bind, get. simpl.
destruct nle, save; simpl; destruct (0 <? size vs)%nat; simpl;
  rewrite ?app_nil_r; repeat split; reflexivity.
Qed.

(** X9. [close()] always returns; afterwards the buffer is empty, the header
    flag is cleared and no line ending is owed, and the declared columns are
    as before.  With an empty buffer it adds nothing to the history and
    leaves the row counter alone. *)
Theorem close_always_returns (w : world V) :
  exists w',
    close w = (Ok tt, w')
    /\ values (self w') = ∅
    /\ header_printed (self w') = false
    /\ needs_line_ending (self w') = false
    /\ columns (self w') = columns (self w)
    /\ (values (self w) = ∅ ->
        finished_rows (self w') = finished_rows (self w)
        /\ num_rows (self w') = num_rows (self w)).
Proof.
destruct (succeeds_snd close w succeeds_close) as [[] E].
exists (snd (close w)). split; [exact E |]. clear E.
assert (Hcols : keeps columns (close (V := V))) by keeps_field.
assert (Hf : keeps finished_rows (print_row (V := V))) by keeps_field.
assert (Hn : keeps num_rows (print_row (V := V))) by keeps_field.
specialize (Hf w). specialize (Hn w).
assert (Hb1 : keeps values (print_bottom_bar (V := V)))
  by (unfold print_bottom_bar; keeps_field).
assert (Hb2 : keeps needs_line_ending (print_bottom_bar (V := V)))
  by (unfold print_bottom_bar; keeps_field).
assert (Hb3 : keeps finished_rows (print_bottom_bar (V := V)))
  by (unfold print_bottom_bar; keeps_field).
assert (Hb4 : keeps num_rows (print_bottom_bar (V := V)))
  by (unfold print_bottom_bar; keeps_field).
assert (Hshape : exists w2,
          self (snd (close w))
          = set_header_printed false (self (snd (print_bottom_bar w2)))
          /\ self w2
             = set_values ∅
                 (if (0 <? size (values (self (snd (print_row w)))))%nat
                  then set_num_rows (num_rows (self (snd (print_row w))) + 1)
                         (set_finished_rows
                            (finished_rows (self (snd (print_row w)))
                             ++ [values (self (snd (print_row w)))])
                            (set_needs_line_ending false (self (snd (print_row w)))))
                  else set_needs_line_ending false (self (snd (print_row w))))).
{ unfold close. run (succeeds_print_row (V := V)).
  destruct (next_row_effect true (snd (print_row w))) as [out E].
  rewrite (bind_ok _ _ _ _ _ E). clear E.
  run (succeeds_bar (V := V) Boxes.up_right Boxes.no_down Boxes.up_left).
  run_prim. eexists. split; reflexivity. }
specialize (Hcols w).
destruct Hshape as (w2 & Es & Hw2). rewrite Es in *. simpl in Hcols.
simpl. rewrite (Hb1 w2), (Hb2 w2), (Hb3 w2), (Hb4 w2), Hw2.
split; [reflexivity |]. split; [reflexivity |].
split; [destruct (0 <? size _)%nat; reflexivity |].
split; [exact Hcols |].
intros He. destruct (print_row_empty w He) as [Hv _].
rewrite Hv, map_size_empty. simpl. split; assumption.
Qed.
End RowsAndExport.

(** ** Export and replay *)

Section ExportAndReplay.
Context {V : Type} `{!PyValue V}.

Lemma read_row_peek cols (row : gmap string V) k :
  peek (snd (read_row cols row)) k empty_str = peek row k empty_str.
Proof.
revert row. induction cols as [| col cols IH]; intros row; simpl; [reflexivity |].
rewrite IH. apply peek_getitem_default.
Qed.

Lemma cells_of_read_row cols cols' (row : gmap string V) :
  cells_of cols (snd (read_row cols' row)) = cells_of cols row.
Proof. unfold cells_of. apply map_ext. intros col. apply read_row_peek. Qed.

Lemma length_cells_of cols (row : gmap string V) :
  length (cells_of cols row) = length cols.
Proof. unfold cells_of. apply length_map. Qed.

(** X10. [to_list()] can be repeated: a second call returns the same rows as
    the first, and a call changes neither the declared columns, the buffer,
    the row counter, the number of history rows nor the output. *)
Theorem to_list_repeatable (w : world V) :
  fst (to_list (snd (to_list w))) = fst (to_list w)
  /\ columns (self (snd (to_list w))) = columns (self w)
  /\ values (self (snd (to_list w))) = values (self w)
  /\ num_rows (self (snd (to_list w))) = num_rows (self w)
  /\ length (finished_rows (self (snd (to_list w)))) = length (finished_rows (self w))
  /\ stdout (snd (to_list w)) = stdout w.
Proof.
split.
- rewrite !to_list_result. unfold to_list, bind, get. simpl. f_equal.
  rewrite !map_map. apply map_ext. intros row. apply cells_of_read_row.
- unfold to_list, bind, get. simpl.
  repeat split. now rewrite !length_map.
Qed.

(** What [display_custom] does with its rows: it stops with an assertion
    error at the first row whose length is not the number of columns. *)
Lemma replay_rows (body : list V -> M (world V) unit) :
  (forall row w,
     length row = length (columns (self w)) ->
     exists w', body row w = (Ok tt, w') /\ columns (self w') = columns (self w)) ->
  (forall row w,
     length row <> length (columns (self w)) ->
     body row w = (Raise (AssertionError ""), w)) ->
  forall data w,
    exists w',
      columns (self w') = columns (self w)
      /\ (Forall (fun row => length row = length (columns (self w))) data ->
          for_each data body w = (Ok tt, w'))
      /\ (~ Forall (fun row => length row = length (columns (self w))) data ->
          for_each data body w = (Raise (AssertionError ""), w')).
Proof.
intros Hok Hbad. induction data as [| row data IH]; intros w.
- exists w. split; [reflexivity |]. split; [reflexivity |].
  intros Hn. exfalso. apply Hn. constructor.
- destruct (Nat.eq_dec (length row) (length (columns (self w)))) as [Hlen | Hlen].
  + destruct (Hok row w Hlen) as (w1 & E1 & Hc1).
    destruct (IH w1) as (w' & Hc & Hgood & Hfail).
    exists w'. rewrite Hc1 in *. split; [exact Hc |]. split.
    * intros Hall. apply Forall_cons in Hall. destruct Hall as [_ Hall].
      simpl. rewrite (bind_ok _ _ _ _ _ E1). now apply Hgood.
    * intros Hn. simpl. rewrite (bind_ok _ _ _ _ _ E1). apply Hfail.
      intros Hall. apply Hn. now constructor.
  + exists w. split; [reflexivity |]. split.
    * intros Hall. apply Forall_cons in Hall. destruct Hall as [Hl _]. contradiction.
    * intros _. simpl. now rewrite (bind_raise _ _ _ _ _ (Hbad row w Hlen)).
Qed.

Lemma stage_row_succeeds (pairs : list (string * V)) :
  succeeds (for_each pairs
              (fun '(key, value) =>
                 modify (V := V)
                   (fun t => set_values (<[key := value]> (values t)) t))).
Proof. apply succeeds_for_each. intros [key value]. apply succeeds_modify. Qed.

(** [display_custom] on any table and any rows. *)
Lemma display_custom_outcome (data : list (list V)) (w : world V) :
  (Forall (fun row => length row = length (columns (self w))) data ->
   exists w', display_custom data w = (Ok tt, w'))
  /\ (~ Forall (fun row => length row = length (columns (self w))) data ->
      exists w', display_custom data w = (Raise (AssertionError ""), w')).
Proof.
unfold display_custom.
assert (Hfirst : succeeds (if header_printed (self w) then close else @ret (world V) unit tt))
  by (destruct (header_printed (self w)); [apply succeeds_close | apply succeeds_ret]).
assert (Hkc : keeps columns (if header_printed (self w) then close else @ret (world V) unit tt))
  by keeps_field.
destruct (Hfirst w) as ([] & w1 & E1). specialize (Hkc w). rewrite E1 in Hkc.
simpl in Hkc.
match goal with
| |- context [for_each data ?b] => set (body := b)
end.
assert (Erun : (t <- get ;;
                (if header_printed t then close else ret tt) ;;
                for_each data body ;; close) w
               = (for_each data body ;; close) w1).
{ unfold bind at 1. cbn [get]. unfold bind at 1. now rewrite E1. }
rewrite Erun. clear Erun.
destruct (replay_rows body) with (data := data) (w := w1)
  as (w2 & Hc2 & Hgood & Hfail).
{ intros row w0 Hlen. unfold body. unfold bind at 1. cbn [get].
  unfold assert. apply Nat.eqb_eq in Hlen. rewrite Hlen. unfold bind at 1. cbn [ret].
  destruct (stage_row_succeeds (zip (columns (self w0)) row) w0) as ([] & w3 & E3).
  assert (K3 : keeps columns
                 (for_each (zip (columns (self w0)) row)
                    (fun '(key, value) =>
                       modify (V := V)
                         (fun t => set_values (<[key := value]> (values t)) t))))
    by keeps_field.
  specialize (K3 w0). rewrite E3 in K3. simpl in K3.
  rewrite (bind_ok _ _ _ _ _ E3).
  destruct (succeeds_print_row (V := V) w3) as ([] & w4 & E4).
  assert (K4 : keeps columns (print_row (V := V))) by keeps_field.
  specialize (K4 w3). rewrite E4 in K4. simpl in K4.
  rewrite (bind_ok _ _ _ _ _ E4).
  destruct (succeeds_next_row (V := V) false w4) as ([] & w5 & E5).
  assert (K5 : keeps columns (next_row (V := V) false)) by keeps_field.
  specialize (K5 w4). rewrite E5 in K5. simpl in K5.
  exists w5. split; [exact E5 | congruence]. }
{ intros row w0 Hlen. unfold body. unfold bind at 1. cbn [get].
  unfold assert. apply Nat.eqb_neq in Hlen. rewrite Hlen. reflexivity. }
rewrite Hkc in *. split.
- intros Hall. rewrite (bind_ok _ _ _ _ _ (Hgood Hall)).
  destruct (succeeds_close (V := V) w2) as ([] & w3 & E3). now exists w3.
- intros Hn. rewrite (bind_raise _ _ _ _ _ (Hfail Hn)). now exists w2.
Qed.

(** X11. [display_custom(data)] returns exactly when every row of [data] has
    as many cells as there are declared columns; otherwise it raises an
    assertion error. *)
Theorem display_custom_checks_row_lengths (data : list (list V)) (w : world V) :
  (Forall (fun row => length row = length (columns (self w))) data <->
   fst (display_custom data w) = Ok tt)
  /\ (~ Forall (fun row => length row = length (columns (self w))) data <->
      fst (display_custom data w) = Raise (AssertionError "")).
Proof.
destruct (display_custom_outcome data w) as [Hgood Hfail].
assert (Hdec : Forall (fun row => length row = length (columns (self w))) data
               \/ ~ Forall (fun row => length row = length (columns (self w))) data).
{ destruct (decide (Forall (fun row => length row = length (columns (self w))) data));
    [left | right]; assumption. }
split; split.
- intros Hall. destruct (Hgood Hall) as [w' ->]. reflexivity.
- intros E. destruct Hdec as [Hall | Hn]; [exact Hall |].
  destruct (Hfail Hn) as [w' E']. rewrite E' in E. discriminate.
- intros Hn. destruct (Hfail Hn) as [w' ->]. reflexivity.
- intros E Hall. destruct (Hgood Hall) as [w' E']. rewrite E' in E. discriminate.
Qed.

(** X12. [display()] never raises: the rows it replays come from
    [to_list()], which gives every row one cell per declared column, as
    [display_custom] requires. *)
Theorem display_always_returns (w : world V) :
  exists w', display w = (Ok tt, w').
Proof.
unfold display.
assert (Hfirst : succeeds (if header_printed (self w) then close else @ret (world V) unit tt))
  by (destruct (header_printed (self w)); [apply succeeds_close | apply succeeds_ret]).
destruct (Hfirst w) as ([] & w1 & E1).
unfold bind at 1. cbn [get]. unfold bind at 1. rewrite E1. cbv beta iota.
pose proof (to_list_result w1) as Hrows.
assert (Hk : keeps columns (to_list (V := V))) by keeps_field.
specialize (Hk w1).
destruct (to_list w1) as [r w2] eqn:E2. simpl in Hrows, Hk. subst r.
rewrite (bind_ok _ _ _ _ _ E2).
apply (proj1 (display_custom_outcome _ w2)).
rewrite Hk. apply Forall_forall. intros row Hin.
apply list_elem_of_In in Hin. apply in_map_iff in Hin.
destruct Hin as (r & <- & _). apply length_cells_of.
Qed.
End ExportAndReplay.

(** ** More on instrumented iteration *)

Section Laziness.
Context {V : Type} `{!PyValue V} {A : Type}.

Lemma consume_prefix_from_loop_head (body : A -> world V -> world V) :
  (forall x w', progress_bar_fps (self (body x w')) = progress_bar_fps (self w')) ->
  forall fuel rest idx length tm tlp tls (w : world V),
    0 <= idx -> idx + Z.of_nat (List.length rest) <= length ->
    ~ (progress_bar_fps (self w) == 0)%Q ->
    (fuel < List.length rest)%nat ->
    exists tm' tlp' tls' w',
      bind (loop_head rest idx length tm tlp tls)
        (loop_body body (fun g' => consume fuel g' body)) w
      = (Ok (take (S fuel) rest,
             Suspended (drop (S fuel) rest) (idx + Z.of_nat fuel) length
               tm' tlp' tls'), w')
      /\ List.length tm' = (List.length tm + fuel)%nat.
Proof.
intros Hbody. induction fuel as [| fuel IH];
  intros rest idx length tm tlp tls w Hidx Hrest Hfps Hfuel;
  destruct rest as [| x rest]; simpl in Hfuel; try lia;
  assert (Hlen : 0 <= idx < length) by (simpl in Hrest; lia).
- destruct (loop_head_yields x rest idx length tm tlp tls w Hfps Hlen)
    as (tlp' & w1 & E).
  rewrite (bind_ok _ _ _ _ _ E). cbn [loop_body consume].
  exists tm, tlp', tls, (body x w1). split; [| lia].
  unfold bind, ret. cbn. rewrite drop_0, Z.add_0_r. reflexivity.
- destruct (loop_head_yields x rest idx length tm tlp tls w Hfps Hlen)
    as (tlp' & w1 & E).
  assert (Hfps1 : progress_bar_fps (self w1) = progress_bar_fps (self w)).
  { assert (Hk : keeps progress_bar_fps
                   (loop_head (x :: rest) idx length tm tlp tls)) by keeps_field.
    specialize (Hk w). now rewrite E in Hk. }
  rewrite (bind_ok _ _ _ _ _ E). clear E.
  cbn [loop_body]. unfold bind at 1. cbv beta iota.
  unfold bind at 1. rewrite consume_suspended.
  match goal with
  | |- context [bind (loop_head rest ?i ?l ?m ?p ?s) _ ?w3] =>
      destruct (IH rest i l m p s w3) as (tm' & tlp'' & tls' & w' & E & Hl)
  end.
  + lia.
  + simpl in Hrest. lia.
  + cbn [self]. rewrite Hbody, Hfps1. exact Hfps.
  + lia.
  + rewrite E. cbn. exists tm', tlp'', tls', w'. split.
    * replace (idx + 1 + Z.of_nat fuel) with (idx + Z.of_nat (S fuel)) by lia.
      reflexivity.
    * rewrite Hl, length_app. simpl. lia.
Qed.

(** X13. The wrapper is lazy.  A caller that stops after [fuel] elements
    (with [0 < fuel <= N]) has seen exactly the first [fuel] elements of the
    source; the frame is suspended at the last of them with the remaining
    elements untouched, its index at [fuel - 1] and [fuel - 1] elapsed-time
    samples taken. *)
Theorem call_hands_out_one_element_per_step (xs : list A)
    (body : A -> world V -> world V) (w : world V) (fuel : nat) :
  ~ (progress_bar_fps (self w) == 0)%Q ->
  (forall x w', progress_bar_fps (self (body x w')) = progress_bar_fps (self w')) ->
  (0 < fuel <= List.length xs)%nat ->
  exists tm tlp tls w',
    consume fuel (Created (Sized xs)) body w
    = (Ok (take fuel xs,
           Suspended (drop fuel xs) (Z.of_nat fuel - 1) (Z.of_nat (List.length xs))
             tm tlp tls), w')
    /\ List.length tm = (fuel - 1)%nat.
Proof.
intros Hfps Hbody [Hpos Hfuel].
destruct fuel as [| fuel]; [lia |].
cbn [consume next]. rewrite bind_assoc. unfold bind at 1. cbn [get].
rewrite bind_assoc.
assert (Hk : keeps progress_bar_fps
               (if header_printed (self w) then @ret (world V) unit tt
                else print_header)) by keeps_field.
specialize (Hk w).
destruct (succeeds_header_part w w) as (a & w1 & E). rewrite E in Hk.
rewrite (bind_ok _ _ _ _ _ E). rewrite bind_assoc.
unfold bind at 1. cbn [time_time].
match goal with
| |- context [bind (loop_head xs ?i ?l ?m ?p ?s) _ ?w3] =>
    destruct (consume_prefix_from_loop_head body Hbody fuel xs i l m p s w3)
      as (tm' & tlp' & tls' & w' & E' & Hl)
end.
- lia.
- lia.
- cbn [self]. simpl in Hk. rewrite Hk. exact Hfps.
- lia.
- exists tm', tlp', tls', w'. split.
  + etransitivity; [exact E' |].
    replace (Z.of_nat (S fuel) - 1) with (0 + Z.of_nat fuel) by lia.
    reflexivity.
  + rewrite Hl. simpl. lia.
Qed.

(** X14. An iterable without [__len__] is refused: the first [next] raises
    an assertion error and no element reaches the caller.  The header has
    been printed by then; the buffer, the history and the declared columns
    are untouched. *)
Theorem call_refuses_unsized_iterable (xs : list A)
    (body : A -> world V -> world V) (w : world V) (fuel : nat) :
  (0 < fuel)%nat ->
  exists w',
    consume fuel (Created (Unsized xs)) body w = (Raise (AssertionError ""), w')
    /\ header_printed (self w') = true
    /\ values (self w') = values (self w)
    /\ finished_rows (self w') = finished_rows (self w)
    /\ columns (self w') = columns (self w).
Proof.
intros Hfuel. destruct fuel as [| fuel]; [lia |].
assert (Hv : keeps values (if header_printed (self w) then @ret (world V) unit tt
                           else print_header)) by keeps_field.
assert (Hf : keeps finished_rows
               (if header_printed (self w) then @ret (world V) unit tt
                else print_header)) by keeps_field.
assert (Hc : keeps columns (if header_printed (self w) then @ret (world V) unit tt
                            else print_header)) by keeps_field.
specialize (Hv w). specialize (Hf w). specialize (Hc w).
assert (Hflag : header_printed
                  (self (snd ((if header_printed (self w) then @ret (world V) unit tt
                               else print_header) w))) = true).
{ destruct (header_printed (self w)) eqn:E; [exact E | apply print_header_sets_flag]. }
destruct (succeeds_header_part w w) as ([] & w1 & E).
rewrite E in Hv, Hf, Hc, Hflag. simpl in Hv, Hf, Hc, Hflag.
exists w1. split; [| repeat split; assumption].
cbn [consume next]. rewrite bind_assoc. unfold bind at 1. cbn [get].
rewrite bind_assoc. rewrite (bind_ok _ _ _ _ _ E). reflexivity.
Qed.

(** X15. With [progress_bar_fps = 0] a non-empty sized iterable cannot be
    iterated: the schedule test divides by zero on the first [next], before
    any element is handed over.  An empty one ends at once, whatever the
    setting. *)
Theorem call_needs_nonzero_fps (x : A) (xs : list A)
    (body : A -> world V -> world V) (w : world V) (fuel : nat) :
  (progress_bar_fps (self w) == 0)%Q ->
  (0 < fuel)%nat ->
  (exists w', consume fuel (Created (Sized (x :: xs))) body w
              = (Raise ZeroDivisionError, w'))
  /\ (exists w', consume fuel (Created (Sized [])) body w = (Ok ([], Finished), w')).
Proof.
intros Hfps Hfuel. destruct fuel as [| fuel]; [lia |].
assert (Hk : keeps progress_bar_fps
               (if header_printed (self w) then @ret (world V) unit tt
                else print_header)) by keeps_field.
specialize (Hk w).
destruct (succeeds_header_part w w) as ([] & w1 & E). rewrite E in Hk. simpl in Hk.
split.
- cbn [consume next]. rewrite bind_assoc. unfold bind at 1. cbn [get].
  rewrite bind_assoc. rewrite (bind_ok _ _ _ _ _ E). rewrite bind_assoc.
  unfold bind at 1. cbn [time_time]. unfold loop_head.
  rewrite bind_assoc. unfold bind at 1. cbn [time_time].
  rewrite bind_assoc. unfold bind at 1. cbn [get self].
  rewrite Hk. unfold float_truediv.
  apply Qeq_bool_iff in Hfps. rewrite Hfps.
  eexists. reflexivity.
- cbn [consume next]. rewrite bind_assoc. unfold bind at 1. cbn [get].
  rewrite bind_assoc. rewrite (bind_ok _ _ _ _ _ E). rewrite bind_assoc.
  unfold bind at 1. cbn [time_time]. unfold loop_head.
  rewrite bind_assoc.
  match goal with
  | |- context [bind print_row ?k ?w2] =>
      destruct (succeeds_print_row (V := V) w2) as ([] & w3 & E3);
      rewrite (bind_ok _ k _ _ _ E3)
  end.
  eexists. reflexivity.
Qed.
End Laziness.

(** ** The redraw schedule *)

Section Schedule.
Context {V : Type} `{!PyValue V} {A : Type}.

Lemma redraw_run idx length tm (w : world V) :
  length <> 0 -> Z.abs idx <= Z.abs length ->
  exists v glyphs,
    throughput idx tm = Ok v
    /\ redraw idx length tm w
       = (Ok tt,
          mkWorld (self w)
            (stdout w ++ [CR; (Boxes.vertical ++ rate_label v ++ glyphs
                               ++ " " ++ Boxes.vertical)%string])
            (clock w) (ticks w)).
Proof.
intros Hlen Hi. unfold redraw. destruct (throughput_ok idx tm) as [v Ev].
exists v. rewrite Ev.
unfold bind at 1. cbn [print self stdout clock ticks].
unfold bind at 1. cbn [lift].
match goal with
| |- context [print_progress_bar idx length ?l ?a ?w1] =>
    destruct (print_progress_bar_run idx length l a w1 Hlen Hi) as [glyphs E]
end.
exists glyphs. split; [reflexivity |]. rewrite E.
cbn [self stdout clock ticks String.concat]. rewrite <- app_assoc. reflexivity.
Qed.

(** Resuming a suspended frame, up to the schedule test. *)
Lemma resume_unfold (x : A) rest idx length tm tlp tls (w : world V) :
  ~ (progress_bar_fps (self w) == 0)%Q ->
  next (Suspended (x :: rest) idx length tm tlp tls) w
  = bind
      (if redraw_due (Finite (clock w (S (S (ticks w))))) tlp
            (round64 (1 / progress_bar_fps (self w)))
       then
         redraw (idx + 1) length
           (tm ++ [float_sub (Finite (clock w (ticks w))) tls]) ;;
         time_time
       else ret tlp)
      (fun t_last_printed =>
         ret (Some x,
              Suspended rest (idx + 1) length
                (tm ++ [float_sub (Finite (clock w (ticks w))) tls])
                t_last_printed (Finite (clock w (S (ticks w))))))
      (mkWorld (self w) (stdout w) (clock w) (S (S (S (ticks w))))).
Proof.
intros Hfps. cbn [next]. unfold bind at 1. cbn [time_time].
unfold bind at 1. cbn [time_time]. unfold loop_head.
unfold bind at 1. cbn [time_time self stdout clock ticks].
unfold bind at 1. cbn [get self].
rewrite (float_truediv_ok _ _ Hfps). unfold bind at 1. cbn [lift]. reflexivity.
Qed.

(** The first [next], up to the schedule test: [w1] is the world once the
    header is there. *)
Lemma first_step_unfold (x : A) xs (w : world V) :
  ~ (progress_bar_fps (self w) == 0)%Q ->
  exists w1,
    header_printed (self w1) = true
    /\ values (self w1) = values (self w)
    /\ finished_rows (self w1) = finished_rows (self w)
    /\ next (Created (Sized (x :: xs))) w
       = bind
           (if redraw_due (Finite (clock w1 (S (ticks w1)))) NegInf
                 (round64 (1 / progress_bar_fps (self w)))
            then redraw 0 (Z.of_nat (List.length (x :: xs))) [] ;; time_time
            else ret NegInf)
           (fun t_last_printed =>
              ret (Some x,
                   Suspended xs 0 (Z.of_nat (List.length (x :: xs))) []
                     t_last_printed (Finite (clock w1 (ticks w1)))))
           (mkWorld (self w1) (stdout w1) (clock w1) (S (S (ticks w1)))).
Proof.
intros Hfps.
assert (Hk : keeps progress_bar_fps
               (if header_printed (self w) then @ret (world V) unit tt
                else print_header)) by keeps_field.
assert (Hv : keeps values (if header_printed (self w) then @ret (world V) unit tt
                           else print_header)) by keeps_field.
assert (Hf : keeps finished_rows
               (if header_printed (self w) then @ret (world V) unit tt
                else print_header)) by keeps_field.
assert (Hflag : header_printed
                  (self (snd ((if header_printed (self w) then @ret (world V) unit tt
                               else print_header) w))) = true).
{ destruct (header_printed (self w)) eqn:E; [exact E | apply print_header_sets_flag]. }
specialize (Hk w). specialize (Hv w). specialize (Hf w).
destruct (succeeds_header_part w w) as ([] & w1 & E).
rewrite E in Hk, Hv, Hf, Hflag. simpl in Hk, Hv, Hf, Hflag.
exists w1. repeat (split; [assumption |]).
cbn [next]. unfold bind at 1. cbn [get].
rewrite (bind_ok _ _ _ _ _ E).
unfold bind at 1. cbn [time_time]. unfold loop_head.
unfold bind at 1. cbn [time_time].
unfold bind at 1. cbn [get self]. rewrite Hk.
rewrite (float_truediv_ok _ _ Hfps). unfold bind at 1. cbn [lift].
cbn [self stdout clock ticks]. reflexivity.
Qed.

(** Measured from minus infinity, the elapsed time exceeds every period
    that is a finite float. *)
Lemma redraw_due_first_finite now q :
  (Qabs q < overflow_threshold)%Q ->
  redraw_due (Finite now) NegInf (round64 q) = true.
Proof.
intros Hq. unfold round64.
destruct (Qle_bool overflow_threshold (Qabs q)) eqn:E; [| reflexivity].
apply Qle_bool_iff in E. exfalso. exact (Qlt_not_le _ _ Hq E).
Qed.

(** It does not exceed an infinite one. *)
Lemma redraw_due_first_infinite now q :
  (overflow_threshold <= q)%Q ->
  redraw_due (Finite now) NegInf (round64 q) = false.
Proof.
intros Hq. unfold round64.
assert (H0 : (0 <= q)%Q).
{ eapply Qle_trans; [| exact Hq]. discriminate. }
assert (Ha : (overflow_threshold <= Qabs q)%Q).
{ eapply Qle_trans; [exact Hq | apply Qle_Qabs]. }
apply Qle_bool_iff in H0, Ha. now rewrite Ha, H0.
Qed.

(** X16. The first redraw is forced when the period [1 / progress_bar_fps]
    is a finite float: the first [next] on a non-empty sized iterable hands
    over the first element and has drawn a progress bar, whatever the clock
    reads; the frame remembers a last-redraw time, the output ends with a
    carriage return and the bar, and the buffer and the history are
    untouched.  When the period overflows to infinity, the last-redraw time
    stays at minus infinity: no bar is drawn. *)
Theorem first_redraw_is_forced (x : A) (xs : list A) (w : world V) :
  ~ (progress_bar_fps (self w) == 0)%Q ->
  ((Qabs (1 / progress_bar_fps (self w)) < overflow_threshold)%Q ->
   exists t tls out bar w',
     next (Created (Sized (x :: xs))) w
     = (Ok (Some x,
            Suspended xs 0 (Z.of_nat (List.length (x :: xs))) [] (Finite t) tls), w')
     /\ stdout w' = out ++ [CR; bar]
     /\ header_printed (self w') = true
     /\ values (self w') = values (self w)
     /\ finished_rows (self w') = finished_rows (self w))
  /\ ((overflow_threshold <= 1 / progress_bar_fps (self w))%Q ->
      exists tls w',
        next (Created (Sized (x :: xs))) w
        = (Ok (Some x,
               Suspended xs 0 (Z.of_nat (List.length (x :: xs))) [] NegInf tls), w')).
Proof.
intros Hfps.
destruct (first_step_unfold x xs w Hfps) as (w1 & Hflag & Hv & Hf & E).
split; intros Hperiod.
- rewrite (redraw_due_first_finite _ _ Hperiod) in E.
  assert (Hlen : Z.of_nat (List.length (x :: xs)) <> 0) by (simpl; lia).
  assert (Hi : Z.abs 0 <= Z.abs (Z.of_nat (List.length (x :: xs)))) by lia.
  destruct (redraw_run 0 (Z.of_nat (List.length (x :: xs))) []
              (mkWorld (self w1) (stdout w1) (clock w1) (S (S (ticks w1)))) Hlen Hi)
    as (v & glyphs & _ & E2).
  cbn [self stdout clock ticks] in E2.
  rewrite bind_assoc, (bind_ok _ _ _ _ _ E2) in E.
  eexists _, _, _, _, _. split; [rewrite E; cbn; reflexivity |].
  cbn. split; [reflexivity |]. repeat split; assumption.
- rewrite (redraw_due_first_infinite _ _ Hperiod) in E.
  eexists _, _. rewrite E. cbn. reflexivity.
Qed.

(** X17. After the first redraw the schedule decides, in float arithmetic.
    On resuming a suspended frame the elapsed time is sampled and the next
    element is handed over; if the time since the last redraw, as a float,
    does not exceed the float [1 / progress_bar_fps], nothing is printed,
    and otherwise a carriage return and a bar are printed and the
    last-redraw time is taken anew.  The table is left untouched either
    way. *)
Theorem redraw_waits_for_period (x : A) (rest : list A) (idx length : Z)
    (tm : list pyfloat) (tlp tls : pyfloat) (w : world V) :
  ~ (progress_bar_fps (self w) == 0)%Q ->
  0 <= idx + 1 < length ->
  let samples := tm ++ [float_sub (Finite (clock w (ticks w))) tls] in
  let elapsed := float_sub (Finite (clock w (S (S (ticks w))))) tlp in
  let period := round64 (1 / progress_bar_fps (self w)) in
  (float_gt elapsed period = false ->
   next (Suspended (x :: rest) idx length tm tlp tls) w
   = (Ok (Some x,
          Suspended rest (idx + 1) length samples tlp
            (Finite (clock w (S (ticks w))))),
      mkWorld (self w) (stdout w) (clock w) (S (S (S (ticks w))))))
  /\ (float_gt elapsed period = true ->
      exists bar,
        next (Suspended (x :: rest) idx length tm tlp tls) w
        = (Ok (Some x,
               Suspended rest (idx + 1) length samples
                 (Finite (clock w (S (S (S (ticks w))))))
                 (Finite (clock w (S (ticks w))))),
           mkWorld (self w) (stdout w ++ [CR; bar]) (clock w)
             (S (S (S (S (ticks w))))))).
Proof.
intros Hfps Hidx samples elapsed period.
pose proof (resume_unfold x rest idx length tm tlp tls w Hfps) as E.
fold samples in E. unfold redraw_due in E. fold elapsed period in E.
split; intros Hdue; rewrite Hdue in E.
- rewrite E. reflexivity.
- assert (Hlen : length <> 0) by lia.
  assert (Hi : Z.abs (idx + 1) <= Z.abs length) by lia.
  destruct (redraw_run (idx + 1) length samples
              (mkWorld (self w) (stdout w) (clock w) (S (S (S (ticks w))))) Hlen Hi)
    as (v & glyphs & _ & E2).
  cbn [self stdout clock ticks] in E2.
  rewrite bind_assoc, (bind_ok _ _ _ _ _ E2) in E.
  eexists. rewrite E. reflexivity.
Qed.

(** C9. At every step at which a redraw fires the label shows the
    throughput of that step.  On resuming a suspended frame the index goes
    up by one and the time since the last step joins the samples; if the
    float sum [s] of the samples, added from left to right, is above zero,
    the label shows [idx / s], a float division that returns, and otherwise
    (samples that sum to zero or less) it shows [0.00]; no
    [ZeroDivisionError] is raised.  At the first step there is no sample
    yet and the label shows [0.00]. *)
Theorem throughput_guarded (x : A) (rest : list A) (idx length : Z)
    (tm : list pyfloat) (tlp tls : pyfloat) (w : world V) :
  ~ (progress_bar_fps (self w) == 0)%Q ->
  (0 <= idx + 1 < length ->
   redraw_due (Finite (clock w (S (S (ticks w))))) tlp
     (round64 (1 / progress_bar_fps (self w))) = true ->
   let samples := tm ++ [float_sub (Finite (clock w (ticks w))) tls] in
   let s := fold_left float_add samples (Finite 0) in
   exists v glyphs,
     throughput (idx + 1) samples = Ok v
     /\ (float_gt s (Finite 0) = true ->
         float_truediv (float_of_int (idx + 1)) s = Ok v)
     /\ (float_gt s (Finite 0) = false -> v = Finite 0)
     /\ next (Suspended (x :: rest) idx length tm tlp tls) w
        = (Ok (Some x,
               Suspended rest (idx + 1) length samples
                 (Finite (clock w (S (S (S (ticks w))))))
                 (Finite (clock w (S (ticks w))))),
           mkWorld (self w)
             (stdout w ++ [CR; ("│" ++ (" [" ++ format_2f v ++ " it/s] ")
                                ++ glyphs ++ " " ++ "│")%string])
             (clock w) (S (S (S (S (ticks w)))))))
  /\ ((Qabs (1 / progress_bar_fps (self w)) < overflow_threshold)%Q ->
      exists out glyphs g w',
        next (Created (Sized (x :: rest))) w = (Ok (Some x, g), w')
        /\ stdout w'
           = out ++ [CR; ("│" ++ " [0.00 it/s] " ++ glyphs ++ " " ++ "│")%string]).
Proof.
intros Hfps. split.
- intros Hidx Hdue samples s.
  pose proof (resume_unfold x rest idx length tm tlp tls w Hfps) as E.
  fold samples in E. rewrite Hdue in E.
  assert (Hlen : length <> 0) by lia.
  assert (Hi : Z.abs (idx + 1) <= Z.abs length) by lia.
  destruct (redraw_run (idx + 1) length samples
              (mkWorld (self w) (stdout w) (clock w) (S (S (S (ticks w))))) Hlen Hi)
    as (v & glyphs & Ev & E2).
  cbn [self stdout clock ticks] in E2.
  rewrite bind_assoc, (bind_ok _ _ _ _ _ E2) in E.
  exists v, glyphs. split; [exact Ev |].
  unfold throughput, sum in Ev. fold s in Ev.
  split; [| split].
  + intros Hs. now rewrite Hs in Ev.
  + intros Hs. rewrite Hs in Ev. now inversion Ev.
  + rewrite E. reflexivity.
- intros Hperiod.
  destruct (first_step_unfold x rest w Hfps) as (w1 & _ & _ & _ & E).
  rewrite (redraw_due_first_finite _ _ Hperiod) in E.
  assert (Hlen : Z.of_nat (List.length (x :: rest)) <> 0) by (simpl; lia).
  assert (Hi : Z.abs 0 <= Z.abs (Z.of_nat (List.length (x :: rest)))) by lia.
  destruct (redraw_run 0 (Z.of_nat (List.length (x :: rest))) []
              (mkWorld (self w1) (stdout w1) (clock w1) (S (S (ticks w1)))) Hlen Hi)
    as (v & glyphs & Ev & E2).
  cbn [self stdout clock ticks] in E2.
  assert (Hv : v = Finite 0).
  { vm_compute in Ev. now inversion Ev. }
  subst v.
  assert (El : rate_label (Finite 0) = " [0.00 it/s] ")
    by (vm_compute; reflexivity).
  rewrite El in E2.
  rewrite bind_assoc, (bind_ok _ _ _ _ _ E2) in E.
  eexists _, glyphs, _, _. split; [rewrite E; cbn; reflexivity |].
  cbn [stdout]. reflexivity.
Qed.
End Schedule.

(** ** What holds along every history of calls *)

Section Evolution.
Context {V : Type} (R : ProgressTable V -> ProgressTable V -> Prop).
Context (R_refl : forall t, R t t).
Context (R_trans : forall t1 t2 t3, R t1 t2 -> R t2 t3 -> R t1 t3).

Lemma evolves_ret {A} (a : A) : evolves R (ret a).
Proof using R_refl. intros w. apply R_refl. Qed.

Lemma evolves_raise {A} e : evolves R (@raise (world V) A e).
Proof using R_refl. intros w. apply R_refl. Qed.

Lemma evolves_lift {A} (r : result A) : evolves R (lift r).
Proof using R_refl. intros w. apply R_refl. Qed.

Lemma evolves_get : evolves R get.
Proof using R_refl. intros w. apply R_refl. Qed.

Lemma evolves_print args sep end_ : evolves R (print args sep end_).
Proof using R_refl. intros w. apply R_refl. Qed.

Lemma evolves_time_time : evolves R time_time.
Proof using R_refl. intros w. apply R_refl. Qed.

Lemma evolves_assert cond msg : evolves R (assert cond msg).
Proof using R_refl. intros w. destruct cond; apply R_refl. Qed.

Lemma evolves_modify g : (forall t, R t (g t)) -> evolves R (modify g).
Proof using Type. intros H w. simpl. apply H. Qed.

Lemma evolves_bind {A B} (c : M (world V) A) (k : A -> M (world V) B) :
  evolves R c -> (forall a, evolves R (k a)) -> evolves R (bind c k).
Proof using R_trans.
intros Hc Hk w. unfold bind.
specialize (Hc w). destruct (c w) as [[a | e] w1]; simpl in *.
- eapply R_trans; [exact Hc | apply Hk].
- exact Hc.
Qed.

Lemma evolves_for_each {Y} (xs : list Y) body :
  (forall x, evolves R (body x)) -> evolves R (for_each xs body).
Proof using R_refl R_trans.
intros Hb. induction xs as [| x xs IH]; simpl.
- apply evolves_ret.
- apply evolves_bind; [apply Hb | intros _; exact IH].
Qed.

Lemma evolves_comprehension {Y Z} (xs : list Y) (g : Y -> M (world V) Z) :
  (forall x, evolves R (g x)) -> evolves R (comprehension xs g).
Proof using R_refl R_trans.
intros Hg. induction xs as [| x xs IH]; simpl.
- apply evolves_ret.
- apply evolves_bind; [apply Hg | intros y].
  apply evolves_bind; [exact IH | intros ys; apply evolves_ret].
Qed.

(** A step that keeps [R] related from any state reached so far. *)
Lemma evolves_from {A} (c : M (world V) A) (t0 : ProgressTable V) w :
  evolves R c -> R t0 (self w) -> R t0 (self (snd (c w))).
Proof using R_trans. intros Hc H0. eapply R_trans; [exact H0 | apply Hc]. Qed.
End Evolution.

Section Lifetime.
Context {V : Type} `{!PyValue V}.
Implicit Types t : ProgressTable V.

Lemma same_cells_refl (row : gmap string V) : same_cells row row.
Proof. intros col. reflexivity. Qed.

Lemma same_cells_trans (r1 r2 r3 : gmap string V) :
  same_cells r1 r2 -> same_cells r2 r3 -> same_cells r1 r3.
Proof. intros H12 H23 col. now rewrite H23, H12. Qed.

Lemma Forall2_same_cells_refl (rows : list (gmap string V)) :
  Forall2 same_cells rows rows.
Proof. induction rows; constructor; [apply same_cells_refl | assumption]. Qed.

Lemma history_extends_refl t : history_extends t t.
Proof.
exists (finished_rows t), []. split; [now rewrite app_nil_r |].
apply Forall2_same_cells_refl.
Qed.

Lemma Forall2_same_cells_trans (l1 l2 l3 : list (gmap string V)) :
  Forall2 same_cells l1 l2 -> Forall2 same_cells l2 l3 -> Forall2 same_cells l1 l3.
Proof.
intros H12. revert l3. induction H12 as [| x y l1 l2 Hxy _ IH]; intros l3 H23.
- inversion H23. constructor.
- inversion H23 as [| y' z l2' l3' Hyz Hrest]; subst.
  constructor; [eapply same_cells_trans; eassumption | now apply IH].
Qed.

Lemma history_extends_trans t1 t2 t3 :
  history_extends t1 t2 -> history_extends t2 t3 -> history_extends t1 t3.
Proof.
intros (k1 & e1 & E1 & H1) (k2 & e2 & E2 & H2).
rewrite E1 in H2. apply Forall2_app_inv_l in H2.
destruct H2 as (k2a & k2b & Ha & Hb & ->).
exists k2a, (k2b ++ e2). split; [now rewrite E2, app_assoc |].
eapply Forall2_same_cells_trans; eassumption.
Qed.

Lemma rendering_step_refl t : rendering_step t t.
Proof.
repeat split; try reflexivity; try (intros; assumption).
- unfold rows_counted. lia.
- apply history_extends_refl.
- now destruct H.
- now destruct H.
Qed.

Lemma rendering_step_trans t1 t2 t3 :
  rendering_step t1 t2 -> rendering_step t2 t3 -> rendering_step t1 t3.
Proof.
intros (C1 & (D1 & F1 & G1) & W1 & K1 & N1 & H1 & I1)
       (C2 & (D2 & F2 & G2) & W2 & K2 & N2 & H2 & I2).
split; [congruence |]. split; [repeat split; congruence |].
split; [intros col; now rewrite W2, W1 |].
split; [intros col; now rewrite K2, K1 |].
split; [unfold rows_counted in *; lia |].
split; [eapply history_extends_trans; eassumption | auto].
Qed.

Lemma lifetime_step_refl t : lifetime_step t t.
Proof.
split; [reflexivity |]. split; [repeat split |].
split; [unfold rows_counted; lia |].
split; [apply history_extends_refl | auto].
Qed.

Lemma lifetime_step_trans t1 t2 t3 :
  lifetime_step t1 t2 -> lifetime_step t2 t3 -> lifetime_step t1 t3.
Proof.
intros (C1 & (D1 & F1 & G1) & N1 & H1 & I1 & J1)
       (C2 & (D2 & F2 & G2) & N2 & H2 & I2 & J2).
split; [etransitivity; eassumption |]. split; [repeat split; congruence |].
split; [unfold rows_counted in *; lia |].
split; [eapply history_extends_trans; eassumption | auto].
Qed.

Lemma rendering_lifetime t t' : rendering_step t t' -> lifetime_step t t'.
Proof.
intros (C & S & W & K & N & H & I).
split; [rewrite C; reflexivity |]. split; [exact S |].
split; [exact N |]. split; [exact H |]. split; [exact I |].
intros Hw col Hin. rewrite W. apply Hw. now rewrite <- C.
Qed.

(** *** The assignments the methods make *)

Lemma history_extends_same t t' :
  finished_rows t' = finished_rows t -> history_extends t t'.
Proof.
intros E. exists (finished_rows t), []. split; [now rewrite E, app_nil_r |].
apply Forall2_same_cells_refl.
Qed.

(** A step that leaves the history alone and puts only declared columns
    into the buffer. *)
Lemma rendering_step_same_rows t t' :
  columns t' = columns t ->
  same_settings t t' ->
  (forall col, width_of t' col = width_of t col) ->
  (forall col, peek (colors t') col None = peek (colors t) col None) ->
  num_rows t' = num_rows t ->
  finished_rows t' = finished_rows t ->
  (forall k, is_Some (values t' !! k) -> is_Some (values t !! k) \/ k ∈ columns t) ->
  rendering_step t t'.
Proof.
intros Hc Hs Hw Hk Hn Hf Hv.
split; [exact Hc |]. split; [exact Hs |]. split; [exact Hw |]. split; [exact Hk |].
split; [unfold rows_counted; rewrite Hn, Hf; lia |].
split; [now apply history_extends_same |].
intros [Hvals Hrows]. split.
- intros k Hin. rewrite Hc. destruct (Hv k Hin) as [Hold | Hcol]; auto.
- rewrite Hf, Hc. exact Hrows.
Qed.

Lemma step_touch_widths t col :
  rendering_step t
    (set_widths (snd (getitem_default (widths t) col (default_width t))) t).
Proof.
apply rendering_step_same_rows; try reflexivity; [repeat split | | now left].
intros c. unfold width_of. simpl. apply peek_getitem_default.
Qed.

Lemma step_touch_colors t col :
  rendering_step t (set_colors (snd (getitem_default (colors t) col None)) t).
Proof.
apply rendering_step_same_rows; try reflexivity; [repeat split | | now left].
intros c. simpl. apply peek_getitem_default.
Qed.

Lemma step_header_printed b t : rendering_step t (set_header_printed b t).
Proof.
apply rendering_step_same_rows; try reflexivity; [repeat split | now left].
Qed.

Lemma step_needs_line_ending b t : rendering_step t (set_needs_line_ending b t).
Proof.
apply rendering_step_same_rows; try reflexivity; [repeat split | now left].
Qed.

(** Any new buffer whose keys are declared columns. *)
Lemma step_values t (vs : gmap string V) :
  (forall k, is_Some (vs !! k) -> is_Some (values t !! k) \/ k ∈ columns t) ->
  rendering_step t (set_values vs t).
Proof.
intros Hkeys.
apply rendering_step_same_rows; try reflexivity; [repeat split | exact Hkeys].
Qed.

Lemma step_touch_values t col :
  col ∈ columns t ->
  rendering_step t (set_values (snd (getitem_default (values t) col empty_str)) t).
Proof.
intros Hcol. apply step_values. intros k Hk.
unfold getitem_default in Hk. destruct (values t !! col) eqn:E; simpl in Hk.
- now left.
- destruct (decide (col = k)) as [<- | Hne]; [now right |].
  rewrite lookup_insert_ne in Hk by exact Hne. now left.
Qed.

Lemma step_set_value t key value :
  key ∈ columns t ->
  rendering_step t (set_values (<[key := value]> (values t)) t).
Proof.
intros Hcol. apply step_values. intros k Hk.
destruct (decide (key = k)) as [<- | Hne]; [now right |].
rewrite lookup_insert_ne in Hk by exact Hne. now left.
Qed.

Lemma step_next_row save t :
  rendering_step t
    (set_values ∅
       (if save && (0 <? size (values t))%nat
        then set_num_rows (num_rows t + 1)
               (set_finished_rows (finished_rows t ++ [values t])
                  (set_needs_line_ending false t))
        else set_needs_line_ending false t)).
Proof.
destruct (save && (0 <? size (values t))%nat).
- split; [reflexivity |]. split; [repeat split |].
  split; [reflexivity |]. split; [reflexivity |].
  split; [unfold rows_counted; simpl; rewrite length_app; simpl; lia |].
  split.
  + exists (finished_rows t), [values t]. split; [reflexivity |].
    apply Forall2_same_cells_refl.
  + intros [Hv Hr]. split; simpl.
    * intros k Hk. rewrite lookup_empty in Hk. now destruct Hk.
    * apply Forall_app. split; [exact Hr |]. constructor; [exact Hv | constructor].
- apply rendering_step_same_rows; try reflexivity; [repeat split |].
  intros k Hk. simpl in Hk. rewrite lookup_empty in Hk. now destruct Hk.
Qed.

Lemma read_row_keys cols (row : gmap string V) k :
  is_Some (snd (read_row cols row) !! k) -> is_Some (row !! k) \/ k ∈ cols.
Proof.
revert row. induction cols as [| col cols IH]; intros row Hk; simpl in Hk.
- now left.
- apply IH in Hk. destruct Hk as [Hk | Hin]; [| right; now constructor].
  unfold getitem_default in Hk. destruct (row !! col) eqn:E; simpl in Hk.
  + now left.
  + destruct (decide (col = k)) as [<- | Hne]; [right; constructor |].
    rewrite lookup_insert_ne in Hk by exact Hne. now left.
Qed.

Lemma step_to_list t :
  rendering_step t
    (set_finished_rows (map snd (map (read_row (columns t)) (finished_rows t))) t).
Proof.
split; [reflexivity |]. split; [repeat split |].
split; [reflexivity |]. split; [reflexivity |].
split; [unfold rows_counted; simpl; rewrite !length_map; lia |].
split.
- eexists _, []. split; [simpl; now rewrite app_nil_r |].
  induction (finished_rows t) as [| row rows IH]; simpl; constructor;
    [| exact IH].
  intros col. apply read_row_peek.
- intros [Hv Hr]. split; [exact Hv |]. simpl.
  induction Hr as [| row rows Hrow _ IH]; simpl; constructor; [| exact IH].
  intros k Hk. apply read_row_keys in Hk. destruct Hk; [now apply Hrow | assumption].
Qed.
End Lifetime.

(** *** The methods other than [add_column] *)

(** One step of a proof that a method is a rendering step. *)
Ltac rs_step :=
  lazymatch goal with
  | |- evolves _ (bind _ _) =>
      apply (evolves_bind _ rendering_step_trans); [| intros ?]
  | |- evolves _ (ret _) => apply (evolves_ret _ rendering_step_refl)
  | |- evolves _ (raise _) => apply (evolves_raise _ rendering_step_refl)
  | |- evolves _ (lift _) => apply (evolves_lift _ rendering_step_refl)
  | |- evolves _ get => apply (evolves_get _ rendering_step_refl)
  | |- evolves _ (print _ _ _) => apply (evolves_print _ rendering_step_refl)
  | |- evolves _ time_time => apply (evolves_time_time _ rendering_step_refl)
  | |- evolves _ (assert _ _) => apply (evolves_assert _ rendering_step_refl)
  | |- evolves _ (modify (set_header_printed _)) =>
      apply evolves_modify; intros ?; apply step_header_printed
  | |- evolves _ (modify (set_needs_line_ending _)) =>
      apply evolves_modify; intros ?; apply step_needs_line_ending
  | |- evolves _ (for_each _ _) =>
      apply (evolves_for_each _ rendering_step_refl rendering_step_trans); intros ?
  | |- evolves _ (comprehension _ _) =>
      apply (evolves_comprehension _ rendering_step_refl rendering_step_trans);
      intros ?
  | |- evolves _ (if ?b then _ else _) => destruct b
  | |- evolves _ (match ?x with _ => _ end) => destruct x
  end.

Section RenderingSteps.
Context {V : Type} `{!PyValue V}.

Abbreviation RS := (rendering_step (V := V)).

(** The relation through a sequence, from one given world. *)
Lemma rendering_bind_at {A B} (c : M (world V) A) (k : A -> M (world V) B) w :
  RS (self w) (self (snd (c w))) ->
  (forall a w1, c w = (Ok a, w1) -> RS (self w1) (self (snd (k a w1)))) ->
  RS (self w) (self (snd (bind c k w))).
Proof.
intros Hc Hk. unfold bind. destruct (c w) as [[a | e] w1] eqn:E; simpl in *.
- eapply rendering_step_trans; [exact Hc | now apply Hk].
- exact Hc.
Qed.

Lemma step_widths_getitem col : evolves RS (widths_getitem col).
Proof. intros w. unfold widths_getitem, bind, get. simpl. apply step_touch_widths. Qed.

Lemma step_colors_getitem col : evolves RS (colors_getitem col).
Proof. intros w. unfold colors_getitem, bind, get. simpl. apply step_touch_colors. Qed.

Lemma step_header_cell col : evolves RS (header_cell col).
Proof.
unfold header_cell. rs_step; [apply step_widths_getitem |].
rs_step; [apply step_colors_getitem | rs_step].
Qed.

Lemma step_bar l c r : evolves RS (bar l c r).
Proof.
unfold bar. rs_step; [rs_step |]. rs_step; [| rs_step].
rs_step. rs_step; [apply step_widths_getitem | rs_step].
Qed.

Lemma step_print_header : evolves RS print_header.
Proof.
unfold print_header, print_top_bar, print_center_bar.
rs_step; [apply step_bar |]. rs_step; [rs_step |]. rs_step; [rs_step |].
rs_step; [rs_step; apply step_header_cell |].
rs_step; [rs_step |]. rs_step; [rs_step |].
rs_step; [apply step_bar | rs_step].
Qed.

Lemma step_print_progress_bar i n before after :
  evolves RS (print_progress_bar i n before after).
Proof.
unfold print_progress_bar. rs_step; [rs_step |].
rs_step; [rs_step | rs_step].
Qed.

Lemma step_redraw idx length tm : evolves RS (redraw idx length tm).
Proof.
unfold redraw. rs_step; [rs_step |]. rs_step; [rs_step |].
apply step_print_progress_bar.
Qed.

Lemma step_row_cell col (w : world V) :
  col ∈ columns (self w) ->
  RS (self w) (self (snd (row_cell col w))).
Proof.
intros Hcol. unfold row_cell. apply rendering_bind_at.
- unfold values_getitem, bind, get. simpl. now apply step_touch_values.
- intros value w1 _.
  match goal with
  | |- RS _ (self (snd (?c w1))) => assert (Hc : evolves RS c)
  end.
  { rs_step; [apply step_widths_getitem |]. rs_step; [rs_step |].
    rs_step; [apply step_colors_getitem | rs_step]. }
  apply Hc.
Qed.

Lemma step_row_cells cols (w : world V) :
  (forall col, col ∈ cols -> col ∈ columns (self w)) ->
  RS (self w) (self (snd (comprehension cols row_cell w))).
Proof.
revert w. induction cols as [| col cols IH]; intros w Hcols; simpl.
- apply rendering_step_refl.
- assert (Hcell : RS (self w) (self (snd (row_cell col w))))
    by (apply step_row_cell, Hcols; left).
  apply rendering_bind_at; [exact Hcell |].
  intros cell w1 E1. rewrite E1 in Hcell. simpl in Hcell.
  apply rendering_bind_at.
  + apply IH. intros c Hc. destruct Hcell as [-> _]. apply Hcols. now right.
  + intros cells w2 _. apply rendering_step_refl.
Qed.

Lemma step_print_row : evolves RS print_row.
Proof.
intros w. unfold print_row. unfold bind at 1. cbn [get].
apply rendering_bind_at.
- destruct (header_printed (self w));
    [apply rendering_step_refl | apply step_print_header].
- intros [] w1 _. unfold bind at 1. cbn [get].
  destruct (size (values (self w1)) =? 0)%nat; [apply rendering_step_refl |].
  unfold bind at 1. cbn [modify]. unfold bind at 1. cbn [print].
  eapply rendering_step_trans; [apply (step_needs_line_ending true) |].
  match goal with
  | |- RS ?t (self (snd (bind _ _ ?w3))) => change t with (self w3)
  end.
  apply rendering_bind_at.
  + apply step_row_cells. intros col Hcol. exact Hcol.
  + intros content w4 _. apply rendering_step_refl.
Qed.

Lemma step_next_row_method save : evolves RS (next_row save).
Proof.
intros w. destruct (next_row_effect save w) as [out E]. rewrite E. simpl.
apply step_next_row.
Qed.

Lemma step_close : evolves RS close.
Proof.
unfold close, print_bottom_bar.
rs_step; [apply step_print_row |]. rs_step; [apply step_next_row_method |].
rs_step; [apply step_bar |]. rs_step; [rs_step | rs_step].
Qed.

Lemma step_to_list_method : evolves RS to_list.
Proof. intros w. unfold to_list, bind, get. simpl. apply step_to_list. Qed.

Lemma step_setitem key value : evolves RS (setitem key value).
Proof.
intros w. rewrite setitem_run.
destruct (bool_decide (key ∈ columns (self w))) eqn:E;
  [| apply rendering_step_refl].
apply bool_decide_eq_true in E.
eapply rendering_step_trans; [apply (step_set_value _ key value E) |].
apply (step_print_row
         (set_self (set_values (<[key := value]> (values (self w))) (self w)) w)).
Qed.

Lemma step_stage_row (pairs : list (string * V)) (w : world V) :
  (forall kv, kv ∈ pairs -> fst kv ∈ columns (self w)) ->
  RS (self w)
    (self (snd (for_each pairs
                  (fun '(key, value) =>
                     modify (fun t => set_values (<[key := value]> (values t)) t))
                  w))).
Proof.
revert w. induction pairs as [| [key value] pairs IH]; intros w Hkeys; simpl.
- apply rendering_step_refl.
- unfold bind at 1. cbn [modify].
  eapply rendering_step_trans.
  + apply (step_set_value (self w) key value). apply (Hkeys (key, value)). left.
  + match goal with
    | |- RS ?t (self (snd (for_each _ _ ?w1))) => change t with (self w1)
    end.
    apply IH. intros kv Hin. simpl. apply Hkeys. now right.
Qed.

Lemma step_display_custom data : evolves RS (display_custom data).
Proof.
unfold display_custom. rs_step; [rs_step |].
rs_step; [rs_step; [apply step_close | rs_step] |].
rs_step; [| apply step_close].
rs_step. intros w. unfold bind at 1. cbn [get].
destruct (length x =? length (columns (self w)))%nat; simpl;
  [| apply rendering_step_refl].
unfold bind at 1. cbn [ret].
apply rendering_bind_at.
- apply step_stage_row. intros [key value] Hin. simpl.
  apply elem_of_zip_l in Hin. exact Hin.
- intros [] w1 _.
  match goal with
  | |- RS _ (self (snd (?c w1))) => assert (Hc : evolves RS c)
  end.
  { rs_step; [apply step_print_row | apply step_next_row_method]. }
  apply Hc.
Qed.

Lemma step_display : evolves RS display.
Proof.
unfold display. rs_step; [rs_step |].
rs_step; [rs_step; [apply step_close | rs_step] |].
rs_step; [apply step_to_list_method | apply step_display_custom].
Qed.

Lemma step_loop_head {A} (rest : list A) idx length tm tlp tls :
  evolves RS (loop_head rest idx length tm tlp tls).
Proof.
unfold loop_head. rs_step.
- rs_step; [apply step_print_row | rs_step].
- rs_step; [rs_step |]. rs_step; [rs_step |]. rs_step; [rs_step |].
  rs_step; [| rs_step].
  rs_step; [| rs_step].
  rs_step; [apply step_redraw | rs_step].
Qed.

Lemma step_next {A} (g : generator A) : evolves RS (next g).
Proof.
unfold next. rs_step.
- rs_step; [rs_step |].
  rs_step; [rs_step; [rs_step | apply step_print_header] |].
  rs_step; [| rs_step].
  rs_step; [rs_step | apply step_loop_head].
- rs_step; [rs_step |]. rs_step; [rs_step | apply step_loop_head].
- rs_step.
Qed.

(** Every call but [add_column] is a rendering step. *)
Lemma step_perform (c : call V) :
  match c with CallAddColumn _ _ _ => False | _ => True end ->
  evolves RS (perform c).
Proof.
destruct c; intros Hc; try contradiction; simpl perform.
- apply step_bar.
- apply step_print_header.
- apply step_print_row.
- apply step_next_row_method.
- apply step_close.
- apply step_print_progress_bar.
- rs_step; [apply step_to_list_method | rs_step].
- apply step_display_custom.
- apply step_display.
- apply step_setitem.
- rs_step; [apply step_next | rs_step].
Qed.
End RenderingSteps.

(** *** Histories *)

Section Histories2.
Context {V : Type} `{!PyValue V}.

(** A state that differs by one more declared column. *)
Lemma lifetime_declare (t t' : ProgressTable V) (name : string) :
  columns t' = columns t ++ [name] ->
  same_settings t t' ->
  num_rows t' = num_rows t ->
  finished_rows t' = finished_rows t ->
  values t' = values t ->
  len name <= width_of t' name ->
  (forall col, col <> name -> width_of t' col = width_of t col) ->
  lifetime_step t t'.
Proof.
intros Hc Hs Hn Hf Hv Hname Hother.
split; [rewrite Hc; now apply prefix_app_r |]. split; [exact Hs |].
split; [unfold rows_counted; rewrite Hn, Hf; lia |].
split; [now apply history_extends_same |]. split.
- intros [Hvals Hrows]. split.
  + intros k Hk. rewrite Hc, Hv in *. apply elem_of_app. left. now apply Hvals.
  + rewrite Hf, Hc. eapply Forall_impl; [exact Hrows |].
    intros row Hrow k Hk. apply elem_of_app. left. now apply Hrow.
- intros Hw col Hin. destruct (decide (col = name)) as [-> | Hne]; [exact Hname |].
  rewrite (Hother col Hne). apply Hw. rewrite Hc in Hin.
  apply elem_of_app in Hin. destruct Hin as [Hin | Hin]; [exact Hin |].
  apply list_elem_of_singleton in Hin. contradiction.
Qed.

Lemma lifetime_add_column name width color :
  evolves (lifetime_step (V := V)) (add_column name width color).
Proof.
intros w. unfold add_column, bind, get, assert. simpl.
destruct (header_printed (self w)); simpl; [apply lifetime_step_refl |].
destruct color as [c |]; simpl.
all: apply (lifetime_declare _ _ name); try reflexivity; [repeat split | |].
all: unfold width_of, peek; simpl.
all: try (rewrite lookup_insert_eq; simpl; rewrite clamp_max; lia).
all: intros col Hne; now rewrite lookup_insert_ne by congruence.
Qed.

Lemma lifetime_perform (c : call V) : evolves (lifetime_step (V := V)) (perform c).
Proof.
intros w. destruct c; try apply lifetime_add_column.
all: apply rendering_lifetime.
all: match goal with
     | |- rendering_step _ (self (snd (perform ?c ?w0))) =>
         exact (step_perform c I w0)
     end.
Qed.

Lemma lifetime_along (cs : list (call V)) (w : world V) :
  lifetime_step (self w) (self (perform_all cs w)).
Proof.
revert w. induction cs as [| c cs IH]; intros w; simpl.
- apply lifetime_step_refl.
- eapply lifetime_step_trans; [apply lifetime_perform | apply IH].
Qed.

(** X18. The display order only grows: after any history of calls, whether
    they returned or raised, the columns declared before are still there, in
    the same order, at the front of the list. *)
Theorem columns_only_grow (cs : list (call V)) (w : world V) :
  columns (self w) `prefix_of` columns (self (perform_all cs w))
  /\ (length (columns (self w)) <= length (columns (self (perform_all cs w))))%nat.
Proof.
destruct (lifetime_along cs w) as [Hp _]. split; [exact Hp |].
destruct Hp as [k ->]. rewrite length_app. lia.
Qed.

(** X19. In every state reached from the constructor the row counter is the
    number of rows in the history. *)
Theorem row_counter_counts_history (cols : list string) (default_column_width : Z)
    (fps : Q) (formatting : option (gmap string (V -> V)))
    (out : list string) (clk : nat -> Q) (tk : nat) (cs : list (call V)) :
  num_rows (self (perform_all cs
              (mkWorld (init cols default_column_width fps formatting) out clk tk)))
  = Z.of_nat (length (finished_rows (self (perform_all cs
       (mkWorld (init cols default_column_width fps formatting) out clk tk))))).
Proof.
set (w0 := mkWorld (init cols default_column_width fps formatting) out clk tk).
destruct (lifetime_along cs w0) as (_ & _ & Hn & _).
unfold rows_counted in Hn. simpl in Hn. lia.
Qed.

Lemma same_cells_export (rows kept : list (gmap string V)) cols :
  Forall2 same_cells rows kept ->
  map (cells_of cols) kept = map (cells_of cols) rows.
Proof.
induction 1 as [| row row' rows rows' Hrow _ IH]; simpl; [reflexivity |].
rewrite IH. f_equal. unfold cells_of. apply map_ext. intros col. apply Hrow.
Qed.

(** X20. The history is append-only: after any history of calls the rows
    finalised before are still at the front of the row history, in the same
    order, and each of them exports the same cells for any list of columns. *)
Theorem finished_rows_are_kept (cs : list (call V)) (w : world V) :
  exists kept extra,
    finished_rows (self (perform_all cs w)) = kept ++ extra
    /\ length kept = length (finished_rows (self w))
    /\ forall cols,
         map (cells_of cols) kept = map (cells_of cols) (finished_rows (self w)).
Proof.
destruct (lifetime_along cs w) as (_ & _ & _ & (kept & extra & E & Hsame) & _).
exists kept, extra. split; [exact E |].
split; [symmetry; eapply Forall2_length; exact Hsame |].
intros cols. now apply same_cells_export.
Qed.

(** X21. If no name passed to the constructor is longer than the default
    width, then in every state reached afterwards every declared column is
    at least as wide as its name. *)
Theorem widths_cover_names_from_constructor (cols : list string)
    (default_column_width : Z) (fps : Q)
    (formatting : option (gmap string (V -> V)))
    (out : list string) (clk : nat -> Q) (tk : nat) (cs : list (call V)) :
  Forall (fun col => len col <= default_column_width) cols ->
  forall col,
    col ∈ columns (self (perform_all cs
            (mkWorld (init cols default_column_width fps formatting) out clk tk))) ->
    len col
    <= width_of (self (perform_all cs
          (mkWorld (init cols default_column_width fps formatting) out clk tk))) col.
Proof.
intros Hcols.
set (w0 := mkWorld (init cols default_column_width fps formatting) out clk tk).
destruct (lifetime_along cs w0) as (_ & _ & _ & _ & _ & Hw).
apply Hw. intros col Hin. simpl in Hin.
unfold width_of, peek. simpl. rewrite lookup_empty. simpl.
rewrite Forall_forall in Hcols. apply Hcols. exact Hin.
Qed.

(** X22. In every state reached from the constructor, every key stored in
    the row buffer or in a row of the history is a declared column. *)
Theorem stored_keys_are_declared (cols : list string) (default_column_width : Z)
    (fps : Q) (formatting : option (gmap string (V -> V)))
    (out : list string) (clk : nat -> Q) (tk : nat) (cs : list (call V)) :
  let t := self (perform_all cs
             (mkWorld (init cols default_column_width fps formatting) out clk tk)) in
  (forall k, is_Some (values t !! k) -> k ∈ columns t)
  /\ Forall (fun row : gmap string V => forall k, is_Some (row !! k) -> k ∈ columns t)
       (finished_rows t).
Proof.
set (w0 := mkWorld (init cols default_column_width fps formatting) out clk tk).
destruct (lifetime_along cs w0) as (_ & _ & _ & _ & Hk & _).
apply Hk. split; simpl.
- intros k Hin. rewrite lookup_empty in Hin. now destruct Hin.
- constructor.
Qed.

(** X23. Only [add_column] changes how wide or in which colour a column is
    shown: any other call, whether it returns or raises, leaves the width and
    the colour of every name as they read before. *)
Theorem only_add_column_restyles (c : call V) (w : world V) :
  match c with CallAddColumn _ _ _ => False | _ => True end ->
  forall col,
    width_of (self (snd (perform c w))) col = width_of (self w) col
    /\ peek (colors (self (snd (perform c w)))) col None
       = peek (colors (self w)) col None.
Proof.
intros Hc col.
destruct (step_perform c Hc w) as (_ & _ & Hw & Hk & _).
split; [apply Hw | apply Hk].
Qed.

(** X24. The constructor's settings are never changed by a method: after
    any history of calls the default width, the redraw rate and the custom
    formatting table are the ones the table was built with. *)
Theorem settings_never_change (cs : list (call V)) (w : world V) :
  default_width (self (perform_all cs w)) = default_width (self w)
  /\ progress_bar_fps (self (perform_all cs w)) = progress_bar_fps (self w)
  /\ custom_formatting (self (perform_all cs w)) = custom_formatting (self w).
Proof.
destruct (lifetime_along cs w) as (_ & Hs & _). exact Hs.
Qed.
End Histories2.

(** ** The further properties on the sample tables *)

Lemma epoch_is_declared : "epoch" ∈ columns (self training_world).
Proof. refine (bool_decide_unpack _ _); vm_compute; exact I. Defined.

Lemma add_column_declares_witness :
  exists w',
    add_column "accuracy" (Some 4) None training_world = (Ok tt, w')
    /\ columns (self w') = columns (self training_world) ++ ["accuracy"]
    /\ width_of (self w') "accuracy"
       = Z.max (default (default_width (self training_world)) (Some 4)) (len "accuracy")
    /\ (forall col, col <> "accuracy" ->
        width_of (self w') col = width_of (self training_world) col)
    /\ peek (colors (self w')) "accuracy" None
       = peek (colors (self training_world)) "accuracy" None
    /\ values (self w') = values (self training_world)
    /\ finished_rows (self w') = finished_rows (self training_world)
    /\ num_rows (self w') = num_rows (self training_world)
    /\ stdout w' = stdout training_world.
Proof. apply (add_column_declares training_world "accuracy" (Some 4) None). reflexivity. Defined.

Lemma setitem_stores_value_witness :
  exists w',
    setitem "epoch" "1" training_world = (Ok tt, w')
    /\ peek (values (self w')) "epoch" empty_str = "1"
    /\ (forall col, col <> "epoch" ->
        peek (values (self w')) col empty_str
        = peek (values (self training_world)) col empty_str)
    /\ header_printed (self w') = true
    /\ needs_line_ending (self w') = true
    /\ columns (self w') = columns (self training_world)
    /\ finished_rows (self w') = finished_rows (self training_world)
    /\ num_rows (self w') = num_rows (self training_world).
Proof. apply setitem_stores_value. exact epoch_is_declared. Defined.

Lemma writes_last_value_wins_witness :
  exists w',
    write_all [("epoch", "1"); ("loss", "0.5"); ("epoch", "2")] training_world
    = (Ok tt, w')
    /\ forall col,
         peek (values (self w')) col empty_str
         = default (peek (values (self training_world)) col empty_str)
             (last_write [("epoch", "1"); ("loss", "0.5"); ("epoch", "2")] col).
Proof.
apply writes_last_value_wins.
repeat constructor; refine (bool_decide_unpack _ _); vm_compute; exact I.
Defined.

Lemma close_always_returns_witness :
  exists w',
    close training_world = (Ok tt, w')
    /\ finished_rows (self w') = finished_rows (self training_world)
    /\ num_rows (self w') = num_rows (self training_world).
Proof.
destruct (close_always_returns training_world) as (w' & E & _ & _ & _ & _ & H).
exists w'. split; [exact E |]. apply H. reflexivity.
Defined.

Lemma call_hands_out_one_element_per_step_witness :
  exists tm tlp tls w',
    consume 2 (Created (Sized ["a"; "b"; "c"])) write_epoch training_world
    = (Ok (take 2 ["a"; "b"; "c"],
           Suspended (drop 2 ["a"; "b"; "c"]) (Z.of_nat 2 - 1)
             (Z.of_nat (length ["a"; "b"; "c"])) tm tlp tls), w')
    /\ length tm = (2 - 1)%nat.
Proof.
apply call_hands_out_one_element_per_step.
- intros H. vm_compute in H. discriminate H.
- intros x w'. unfold write_epoch.
  apply (keeps_setitem progress_bar_fps); intros; reflexivity.
- simpl. lia.
Defined.

Lemma call_refuses_unsized_iterable_witness :
  exists w',
    consume 1 (Created (Unsized ["a"])) write_epoch training_world
    = (Raise (AssertionError ""), w')
    /\ header_printed (self w') = true
    /\ values (self w') = values (self training_world)
    /\ finished_rows (self w') = finished_rows (self training_world)
    /\ columns (self w') = columns (self training_world).
Proof. apply call_refuses_unsized_iterable. lia. Defined.

Lemma call_needs_nonzero_fps_witness :
  (exists w', consume 1 (Created (Sized ["a"; "b"])) write_epoch zero_fps_world
              = (Raise ZeroDivisionError, w'))
  /\ (exists w', consume 1 (Created (Sized [])) write_epoch zero_fps_world
                 = (Ok ([], Finished), w')).
Proof. apply call_needs_nonzero_fps; [reflexivity | lia]. Defined.

Lemma first_redraw_is_forced_witness :
  exists t tls out bar w',
    next (Created (Sized ["a"; "b"])) training_world
    = (Ok (Some "a",
           Suspended ["b"] 0 (Z.of_nat (length ["a"; "b"])) [] (Finite t) tls), w')
    /\ stdout w' = out ++ [CR; bar]
    /\ header_printed (self w') = true
    /\ values (self w') = values (self training_world)
    /\ finished_rows (self w') = finished_rows (self training_world).
Proof.
destruct (first_redraw_is_forced "a" ["b"] training_world) as [H _].
- intros H. vm_compute in H. discriminate H.
- apply H. vm_compute. reflexivity.
Defined.

(** With [progress_bar_fps=5e-324] the period [1 / progress_bar_fps]
    overflows to infinity and the first [next] draws no bar: the header is
    all there is on the output. *)
Example tiny_fps_draws_no_bar :
  round64 (1 / progress_bar_fps (self tiny_fps_world)) = PosInf
  /\ exists tls w',
       next (Created (Sized ["a"])) tiny_fps_world
       = (Ok (Some "a", Suspended [] 0 1 [] NegInf tls), w')
       /\ stdout w' = stdout (snd (print_header tiny_fps_world)).
Proof.
split; [vm_compute; reflexivity |].
eexists _, _. split; vm_compute; reflexivity.
Qed.

Lemma redraw_waits_for_period_witness :
  next (Suspended ["b"; "c"] 0 3 [] (Finite (quick_clock 2)) (Finite (quick_clock 0)))
    quick_world_at_first
  = (Ok (Some "b",
         Suspended ["c"] (0 + 1) 3
           ([] ++ [float_sub
                     (Finite (clock quick_world_at_first (ticks quick_world_at_first)))
                     (Finite (quick_clock 0))])
           (Finite (quick_clock 2))
           (Finite (clock quick_world_at_first (S (ticks quick_world_at_first))))),
     mkWorld (self quick_world_at_first) (stdout quick_world_at_first)
       (clock quick_world_at_first) (S (S (S (ticks quick_world_at_first))))).
Proof.
destruct (redraw_waits_for_period "b" ["c"] 0 3 []
            (Finite (quick_clock 2)) (Finite (quick_clock 0)) quick_world_at_first)
  as [H _].
- intros H. vm_compute in H. discriminate H.
- lia.
- apply H. vm_compute. reflexivity.
Defined.

(** The frame of that step is the one the first [next] leaves. *)
Example quick_world_first_step :
  next (Created (Sized ["a"; "b"; "c"])) quick_world
  = (Ok (Some "a",
         Suspended ["b"; "c"] 0 3 [] (Finite (quick_clock 2)) (Finite (quick_clock 0))),
     quick_world_at_first).
Proof. vm_compute. reflexivity. Qed.

(** The period is compared as a float.  With [progress_bar_fps = 10], a last
    redraw at time 0 and the clock at the float [0.1], which lies above one
    tenth, the test [0.1 > 1 / 10] is false: both sides are the same
    float. *)
Example period_is_compared_as_a_float :
  (1 / 10 < 3602879701896397 # 36028797018963968)%Q
  /\ redraw_due (Finite (3602879701896397 # 36028797018963968)) (Finite 0)
       (round64 (1 / 10)) = false.
Proof. split; vm_compute; reflexivity. Qed.

Lemma throughput_guarded_witness :
  next (Created (Sized ["a"; "b"; "c"])) timed_world
  = (Ok (Some "a",
         Suspended ["b"; "c"] 0 3 []
           (Finite (sixteenth_clock 2)) (Finite (sixteenth_clock 0))),
     timed_world_at_first)
  /\ exists v glyphs,
       throughput (0 + 1)
         ([] ++ [float_sub
                   (Finite (clock timed_world_at_first (ticks timed_world_at_first)))
                   (Finite (sixteenth_clock 0))]) = Ok v
       /\ format_2f v = "5.33"
       /\ next (Suspended ["b"; "c"] 0 3 []
                  (Finite (sixteenth_clock 2)) (Finite (sixteenth_clock 0)))
            timed_world_at_first
          = (Ok (Some "b",
                 Suspended ["c"] (0 + 1) 3
                   ([] ++ [float_sub
                             (Finite (clock timed_world_at_first
                                        (ticks timed_world_at_first)))
                             (Finite (sixteenth_clock 0))])
                   (Finite (clock timed_world_at_first
                              (S (S (S (ticks timed_world_at_first))))))
                   (Finite (clock timed_world_at_first
                              (S (ticks timed_world_at_first))))),
             mkWorld (self timed_world_at_first)
               (stdout timed_world_at_first
                ++ [CR; ("│" ++ (" [" ++ format_2f v ++ " it/s] ")
                         ++ glyphs ++ " " ++ "│")%string])
               (clock timed_world_at_first)
               (S (S (S (S (ticks timed_world_at_first)))))).
Proof.
split; [vm_compute; reflexivity |].
destruct (throughput_guarded "b" ["c"] 0 3 []
            (Finite (sixteenth_clock 2)) (Finite (sixteenth_clock 0))
            timed_world_at_first) as [H _].
- intros H. vm_compute in H. discriminate H.
- destruct H as (v & glyphs & Ev & _ & _ & En).
  + lia.
  + vm_compute. reflexivity.
  + exists v, glyphs. split; [exact Ev |]. split; [| exact En].
    vm_compute in Ev. inversion Ev. vm_compute. reflexivity.
Defined.

(** The label shows the float, rounded to two decimals: one step in 200
    seconds is the float just above 0.005 and reads [0.01], where the exact
    quotient would be a tie and read [0.00]. *)
Example throughput_label_rounds_the_float :
  exists v,
    throughput 1 [Finite 200] = Ok v
    /\ rate_label v = " [0.01 it/s] "
    /\ round_half_even (1 / 200 * 100) = 0.
Proof. eexists. repeat split; vm_compute; reflexivity. Qed.

Lemma widths_cover_names_from_constructor_witness :
  len "train accuracy"
  <= width_of (self (perform_all
                 [CallAddColumn "train accuracy" None None; CallSetItem "epoch" "1"]
                 training_world)) "train accuracy".
Proof.
apply (widths_cover_names_from_constructor ["epoch"; "loss"] 8 10%Q None []
         sample_clock 0).
- repeat constructor; vm_compute; discriminate.
- refine (bool_decide_unpack _ _); vm_compute; exact I.
Defined.

Lemma only_add_column_restyles_witness :
  width_of (self (snd (perform (CallSetItem "epoch" "1") training_world))) "epoch"
  = width_of (self training_world) "epoch"
  /\ peek (colors (self (snd (perform (CallSetItem "epoch" "1") training_world))))
       "epoch" None
     = peek (colors (self training_world)) "epoch" None.
Proof. apply (only_add_column_restyles (CallSetItem "epoch" "1") training_world I). Defined.

